(** * The in-memory cache manager and its invalidation-channel factory

    A shallow embedding of [bclib/cache/dict_cache_manager.py]
    ([DictMemoryCacheManager]) and [src/cache/signaler/factory.py]
    ([create_signaler]).

    Conventions of the embedding:
    - the [OrderedDict] of the manager is an association list, oldest
      position first, newest last; its keys are pairwise distinct;
    - cache items are Python objects: they live in a heap (a list indexed
      by address) and buckets hold addresses, so that the item a wrapper
      reaches through [function.cache] is the very item stored in the bucket;
    - every operation reads the clock once; the reading is the argument
      [now];
    - a Python exception is the [Raise] case of [result]. *)

From Stdlib Require Import List ZArith Lia String Bool Sorted Arith.
Import ListNotations.

Local Open Scope string_scope.
Local Open Scope list_scope.

(** ** Python values and exceptions *)

Inductive PyValue : Type :=
| PyNone
| PyInt (z : Z)
| PyStr (s : string).

Definition PyValue_eqb (a b : PyValue) : bool :=
  match a, b with
  | PyNone, PyNone => true
  | PyInt x, PyInt y => Z.eqb x y
  | PyStr x, PyStr y => String.eqb x y
  | _, _ => false
  end.

(** [v is not None] *)
Definition is_not_None (v : PyValue) : bool :=
  match v with
  | PyNone => false
  | _ => true
  end.

Inductive PyError : Type :=
| ValueError (msg : string)
| TypeError
| AttributeError
| Exception (msg : string).

Inductive result (A : Type) : Type :=
| Ok (a : A)
| Raise (e : PyError).
Arguments Ok {A} a.
Arguments Raise {A} e.

(** ** collections.OrderedDict, keyed by strings *)

Module OrderedDict.
Section Ops.
Context {V : Type}.

Definition t : Type := list (string * V).

Definition empty : t := [].

(** iteration order of the keys *)
Definition keys (d : t) : list string := map fst d.

Definition len (d : t) : nat := List.length d.

(** [d[key]], [None] standing for KeyError *)
Fixpoint get (d : t) (key : string) : option V :=
  match d with
  | [] => None
  | (k, v) :: d' => if String.eqb key k then Some v else get d' key
  end.

(** [key in d] *)
Definition contains (d : t) (key : string) : bool :=
  existsb (String.eqb key) (keys d).

(** [d[key] = v]: an existing key keeps its position, a new key goes last *)
Fixpoint setitem (d : t) (key : string) (v : V) : t :=
  match d with
  | [] => [(key, v)]
  | (k, w) :: d' =>
      if String.eqb key k then (k, v) :: d' else (k, w) :: setitem d' key v
  end.

(** [d.pop(key)] for a key of [d] (keys are distinct) *)
Definition pop (d : t) (key : string) : t :=
  filter (fun p => negb (String.eqb key (fst p))) d.

(** [d.move_to_end(key)]; the callers only use it on a key of [d] *)
Definition move_to_end (d : t) (key : string) : t :=
  match get d key with
  | Some v => pop d key ++ [(key, v)]
  | None => d
  end.

(** [d.popitem(last=False)]; the caller only uses it on a non-empty [d] *)
Definition popitem_first (d : t) : t := tl d.
End Ops.
Arguments t V : clear implicits.
End OrderedDict.

(** ** Configuration, functions and cache items *)

(** The fields that [InMemoryCacheManager.__init__] reads from the options. *)
Record Options : Type := {
  max_size : Z;
  default_life_time : Z;
  max_life_time : Z
}.

(** A Python function object: its identity and what calling it returns. *)
Record Function : Type := {
  fn_id : nat;
  fn_body : list PyValue -> PyValue
}.

(** Modelled from the spec: the cache item classes ([BaseCacheItem],
    [CostumCacheItem], [FunctionCacheItem]) are not among the sources.
    An item has a payload, a life time and an expiry; the function-backed
    variant also has its computation. *)
Record CacheItem : Type := {
  item_data : PyValue;
  item_life_time : Z;
  item_expire : Z;
  item_function : option Function
}.

(** Modelled from the spec: [data()] returns the payload if
    [now < expiresAt], else the absent value; it removes nothing. *)
Definition data (now : Z) (it : CacheItem) : PyValue :=
  if (now <? item_expire it)%Z then item_data it else PyNone.

(** Modelled from the spec: creation clamps the life time into
    [[0, max_life_time]] and sets [expiresAt = now + life_time]. *)
Definition clamp_life_time (opts : Options) (life_time : Z) : Z :=
  Z.max 0 (Z.min life_time (max_life_time opts)).

(** Modelled from the spec: [CostumCacheItem(data, life_time)], where an
    omitted life time is the default one. *)
Definition CostumCacheItem (opts : Options) (now : Z)
    (payload : PyValue) (life_time : option Z) : CacheItem :=
  let lt := clamp_life_time opts
              (match life_time with
               | Some z => z
               | None => default_life_time opts
               end) in
  {| item_data := payload; item_life_time := lt;
     item_expire := (now + lt)%Z; item_function := None |}.

(** Modelled from the spec: [FunctionCacheItem(data, life_time, function)]. *)
Definition FunctionCacheItem (opts : Options) (now : Z)
    (payload : PyValue) (life_time : Z) (function : Function) : CacheItem :=
  let lt := clamp_life_time opts life_time in
  {| item_data := payload; item_life_time := lt;
     item_expire := (now + lt)%Z; item_function := Some function |}.

(** Modelled from the spec: [refresh] overwrites the payload and extends
    the expiry. *)
Definition refresh (now : Z) (payload : PyValue) (it : CacheItem) : CacheItem :=
  {| item_data := payload; item_life_time := item_life_time it;
     item_expire := (now + item_life_time it)%Z;
     item_function := item_function it |}.

(** Modelled from the spec: the members of [CacheStatus] the manager returns. *)
Inductive CacheStatus : Type :=
| NONE | UPDATED | REMOVED | RESET | CLEANED | SET.

(** ** The state of the manager and of the objects it shares *)

Record State : Type := {
  (** [self.__cache_dict] : key -> bucket of item addresses *)
  cache_dict : OrderedDict.t (list nat);
  (** the cache item objects *)
  heap : list CacheItem;
  (** the [cache] attribute of function objects: function id -> item *)
  fn_cache : list (nat * nat);
  (** the computations invoked so far, oldest first *)
  calls : list (nat * list PyValue)
}.

Definition empty_state : State :=
  {| cache_dict := OrderedDict.empty; heap := []; fn_cache := []; calls := [] |}.

Definition with_dict (s : State) (d : OrderedDict.t (list nat)) : State :=
  {| cache_dict := d; heap := heap s; fn_cache := fn_cache s; calls := calls s |}.

(** a new object: its address, and the heap that holds it *)
Definition alloc (it : CacheItem) (s : State) : nat * State :=
  (List.length (heap s),
   {| cache_dict := cache_dict s; heap := heap s ++ [it];
      fn_cache := fn_cache s; calls := calls s |}).

(** [function.cache = cache_item] *)
Definition set_fn_cache (function : Function) (a : nat) (s : State) : State :=
  {| cache_dict := cache_dict s; heap := heap s;
     fn_cache := (fn_id function, a) :: fn_cache s; calls := calls s |}.

(** [function.cache] *)
Fixpoint lookup_fn (l : list (nat * nat)) (id : nat) : option nat :=
  match l with
  | [] => None
  | (i, a) :: l' => if Nat.eqb id i then Some a else lookup_fn l' id
  end.

(** [item.data()] of the item at an address; an address outside the heap
    (none is ever stored) reads as absent *)
Definition data_at (now : Z) (h : list CacheItem) (a : nat) : PyValue :=
  match nth_error h a with
  | Some it => data now it
  | None => PyNone
  end.

(** [l[a] = it] on the heap *)
Fixpoint heap_set (h : list CacheItem) (a : nat) (it : CacheItem) : list CacheItem :=
  match h, a with
  | [], _ => []
  | _ :: h', O => it :: h'
  | x :: h', S a' => x :: heap_set h' a' it
  end.

(** [list.remove(x)]: drops the first occurrence (items compare by identity) *)
Fixpoint list_remove (x : nat) (l : list nat) : list nat :=
  match l with
  | [] => []
  | y :: l' => if Nat.eqb y x then l' else y :: list_remove x l'
  end.

(** ** DictMemoryCacheManager *)

Definition bucket_of (d : OrderedDict.t (list nat)) (key : string) : list nat :=
  match OrderedDict.get d key with
  | Some b => b
  | None => []
  end.

Definition _size (s : State) : nat := OrderedDict.len (cache_dict s).

(** Modelled from the spec: the property [_is_valid_size] of
    [InMemoryCacheManager] is not among the sources; the store holds at
    most [capacity] keys. *)
Definition _is_valid_size (opts : Options) (s : State) : bool :=
  (Z.of_nat (_size s) <=? max_size opts)%Z.

Definition _add_to_cache (opts : Options) (key : string) (cache_item : nat)
    (s : State) : CacheStatus * State :=
  let d := cache_dict s in
  if OrderedDict.contains d key then
    let d1 := OrderedDict.setitem d key (bucket_of d key ++ [cache_item]) in
    (UPDATED, with_dict s (OrderedDict.move_to_end d1 key))
  else
    let s1 := with_dict s (OrderedDict.setitem d key [cache_item]) in
    if negb (_is_valid_size opts s1) then
      (UPDATED, with_dict s1 (OrderedDict.popitem_first (cache_dict s1)))
    else
      (UPDATED, s1).

(** The [life_time] argument of [cache_decorator]: an int, [None], or a
    string, which is what the parameter's default value is. *)
Inductive LifeTimeArg : Type :=
| LtNone
| LtInt (z : Z)
| LtStr (s : string).

(** the default value of the parameter [life_time] of [cache_decorator] *)
Definition life_time_default : LifeTimeArg := LtStr "None".

(** [min(life_time, self._max_life_time) if life_time is not None
     else self._default_life_time]; [min] of a string and an int raises *)
Definition resolve_life_time (opts : Options) (life_time : LifeTimeArg) : result Z :=
  match life_time with
  | LtNone => Ok (default_life_time opts)
  | LtInt z => Ok (Z.min z (max_life_time opts))
  | LtStr _ => Raise TypeError
  end.

(** The wrapper closes over the decorated function. *)
Record Wrapper : Type := { wrapped : Function }.

(** the inner [decorator(function)] of [cache_decorator] *)
Definition decorator (opts : Options) (key : option string) (life_time : Z)
    (now : Z) (function : Function) (s : State) : result Wrapper * State :=
  match key with
  | Some k =>
      let (cache_item, s1) :=
        alloc (FunctionCacheItem opts now PyNone life_time function) s in
      let s2 := set_fn_cache function cache_item s1 in
      let (_, s3) := _add_to_cache opts k cache_item s2 in
      (Ok {| wrapped := function |}, s3)
  | None => (Raise (ValueError "key is None!"), s)
  end.

Definition cache_decorator (opts : Options) (key : option string)
    (life_time : LifeTimeArg)
  : result (Z -> Function -> State -> result Wrapper * State) :=
  match resolve_life_time opts life_time with
  | Ok lt => Ok (decorator opts key lt)
  | Raise e => Raise e
  end.

(** [cache_decorator(key, life_time)(function)]: registration *)
Definition memoize (opts : Options) (now : Z) (key : option string)
    (life_time : LifeTimeArg) (function : Function) (s : State)
  : result Wrapper * State :=
  match cache_decorator opts key life_time with
  | Ok dec => dec now function s
  | Raise e => (Raise e, s)
  end.

(** Modelled from the spec: [FunctionCacheItem.get_data(args)] returns
    [data()] if it is present; otherwise it invokes the computation with
    the caller's arguments, stores the result with [refresh] and returns it. *)
Definition get_data (now : Z) (a : nat) (args : list PyValue) (s : State)
  : result PyValue * State :=
  match nth_error (heap s) a with
  | None => (Raise AttributeError, s)
  | Some it =>
      match data now it with
      | PyNone =>
          match item_function it with
          | Some f =>
              let v := fn_body f args in
              (Ok v,
               {| cache_dict := cache_dict s;
                  heap := heap_set (heap s) a (refresh now v it);
                  fn_cache := fn_cache s;
                  calls := calls s ++ [(fn_id f, args)] |})
          | None => (Raise AttributeError, s)
          end
      | v => (Ok v, s)
      end
  end.

(** calling the [wrapper] that [decorator] returned *)
Definition wrapper_call (now : Z) (w : Wrapper) (args : list PyValue) (s : State)
  : result PyValue * State :=
  match lookup_fn (fn_cache s) (fn_id (wrapped w)) with
  | Some function_cache => get_data now function_cache args s
  | None => (Raise AttributeError, s)
  end.

Definition reset (keys : option (list string)) (s : State) : CacheStatus * State :=
  match keys with
  | None => (RESET, with_dict s OrderedDict.empty)
  | Some ks =>
      if Nat.eqb (List.length ks) 0 then (RESET, with_dict s OrderedDict.empty)
      else
        (RESET,
         with_dict s
           (fold_left
              (fun d key =>
                 if OrderedDict.contains d key then OrderedDict.pop d key else d)
              ks (cache_dict s)))
  end.

Definition _clean (now : Z) (s : State) : CacheStatus * State :=
  let d := cache_dict s in
  let valid_cache_dict :=
    fold_left
      (fun valid key =>
         let valid_cache_list :=
           fold_left
             (fun acc item =>
                if is_not_None (data_at now (heap s) item) then acc ++ [item]
                else acc)
             (bucket_of d key) [] in
         if Nat.ltb 0 (List.length valid_cache_list)
         then OrderedDict.setitem valid key valid_cache_list
         else valid)
      (OrderedDict.keys d) OrderedDict.empty in
  (CLEANED, with_dict s valid_cache_dict).

Definition get_cache (now : Z) (key : string) (s : State)
  : option (list PyValue) * State :=
  let d := cache_dict s in
  if OrderedDict.contains d key then
    let d1 := OrderedDict.move_to_end d key in
    let cache_list :=
      map (data_at now (heap s))
        (filter (fun item => is_not_None (data_at now (heap s) item))
           (bucket_of d1 key)) in
    (if Nat.ltb 0 (List.length cache_list) then Some cache_list else None,
     with_dict s d1)
  else (None, s).

Definition _update (opts : Options) (now : Z) (key : string) (payload : PyValue)
    (life_time : option Z) (s : State) : bool * State :=
  let d := cache_dict s in
  if OrderedDict.contains d key then
    let (a, s1) := alloc (CostumCacheItem opts now payload life_time) s in
    let d1 := OrderedDict.setitem d key (bucket_of d key ++ [a]) in
    (true, with_dict s1 (OrderedDict.move_to_end d1 key))
  else (false, s).

Definition add_or_update (opts : Options) (now : Z) (key : string)
    (payload : PyValue) (life_time : option Z) (s : State) : CacheStatus * State :=
  let (a, s1) := alloc (CostumCacheItem opts now payload life_time) s in
  _add_to_cache opts key a s1.

Definition remove (now : Z) (key : string) (payload : PyValue) (s : State)
  : CacheStatus * State :=
  let d := cache_dict s in
  if OrderedDict.contains d key then
    let cache_list := bucket_of d key in
    match find (fun item => PyValue_eqb (data_at now (heap s) item) payload)
            cache_list with
    | Some selected_item =>
        (REMOVED,
         with_dict s
           (OrderedDict.setitem d key (list_remove selected_item cache_list)))
    | None => (NONE, s)
    end
  else (NONE, s).

Definition set_data (opts : Options) (now : Z) (key : string)
    (payload : PyValue) (life_time : option Z) (s : State) : CacheStatus * State :=
  let (a, s1) := alloc (CostumCacheItem opts now payload life_time) s in
  let d1 := OrderedDict.setitem (cache_dict s1) key [a] in
  (SET, with_dict s1 (OrderedDict.move_to_end d1 key)).

(** Modelled from the spec: the public [size()] and [clean()] of
    [InMemoryCacheManager] delegate to [_size] and [_clean]. *)
Definition size (s : State) : nat := _size s.

Definition clean (now : Z) (s : State) : CacheStatus * State := _clean now s.

(** ** Sequences of operations *)

(** A call of the public interface, with the clock reading it runs at. *)
Inductive Op : Type :=
| OpAddOrUpdate (key : string) (payload : PyValue) (life_time : option Z)
| OpSetData (key : string) (payload : PyValue) (life_time : option Z)
| OpGetCache (key : string)
| OpRemove (key : string) (payload : PyValue)
| OpReset (keys : option (list string))
| OpClean
| OpMemoize (key : option string) (life_time : LifeTimeArg) (function : Function)
| OpCall (w : Wrapper) (args : list PyValue).

Definition step (opts : Options) (s : State) (e : Z * Op) : State :=
  let (now, op) := e in
  match op with
  | OpAddOrUpdate key payload lt => snd (add_or_update opts now key payload lt s)
  | OpSetData key payload lt => snd (set_data opts now key payload lt s)
  | OpGetCache key => snd (get_cache now key s)
  | OpRemove key payload => snd (remove now key payload s)
  | OpReset keys => snd (reset keys s)
  | OpClean => snd (clean now s)
  | OpMemoize key lt function => snd (memoize opts now key lt function s)
  | OpCall w args => snd (wrapper_call now w args s)
  end.

Definition run (opts : Options) (h : list (Z * Op)) (s : State) : State :=
  fold_left (step opts) h s.

(** the states the manager can be in: those a sequence of calls reaches
    from the empty store *)
Definition reachable (opts : Options) (s : State) : Prop :=
  exists h, s = run opts h empty_state.

(** ** The invalidation channel factory *)

Inductive Signaler : Type :=
| NoSignaler
| RabbitSignaller (options : option (list (string * string))).

(** [options["type"] if options and "type" in options else "none"], for
    [options] a dict of strings or [None] *)
Definition signaler_type (options : option (list (string * string))) : string :=
  match options with
  | Some o =>
      if andb (Nat.ltb 0 (List.length o)) (OrderedDict.contains o "type")
      then match OrderedDict.get o "type" with
           | Some ty => ty
           | None => "none"
           end
      else "none"
  | None => "none"
  end.

Definition create_signaler (options : option (list (string * string)))
  : result Signaler :=
  if String.eqb (signaler_type options) "rabbit" then
    Ok (RabbitSignaller options)
  else if String.eqb (signaler_type options) "none" then
    Ok NoSignaler
  else
    Raise (Exception ("unknown type for cache signaller('$"
                      ++ signaler_type options ++ "')")).

(** ** Definitions the statements use *)

Definition without (key : string) (ks : list string) : list string :=
  filter (fun x => negb (String.eqb key x)) ks.

(** the store [clean] builds, in the words of the specification: every
    bucket keeps the entries whose [data()] is present, in their order,
    and the keys whose bucket is then empty are dropped *)
Definition clean_spec (now : Z) (h : list CacheItem)
    (d : OrderedDict.t (list nat)) : OrderedDict.t (list nat) :=
  filter (fun p => Nat.ltb 0 (List.length (snd p)))
    (map (fun p => (fst p, filter (fun a => is_not_None (data_at now h a)) (snd p)))
       d).

(** The key a call touches: the key it stores under or reads.  A
    registration touches its key when it gets as far as the store. *)
Definition touches (op : Op) : option string :=
  match op with
  | OpAddOrUpdate key _ _ => Some key
  | OpSetData key _ _ => Some key
  | OpGetCache key => Some key
  | OpMemoize (Some key) (LtStr _) _ => None
  | OpMemoize (Some key) _ _ => Some key
  | _ => None
  end.

Definition touches_key (op : Op) (key : string) : bool :=
  match touches op with
  | Some k => String.eqb k key
  | None => false
  end.

(** the position in the history (the first call is 1) of the last call
    that touched the key, 0 if none did *)
Fixpoint last_touch (h : list (Z * Op)) (key : string) : nat :=
  match h with
  | [] => 0
  | e :: h' =>
      match last_touch h' key with
      | 0 => if touches_key (snd e) key then 1 else 0
      | S n => S (S n)
      end
  end.

Definition is_set_data (op : Op) : bool :=
  match op with
  | OpSetData _ _ _ => true
  | _ => false
  end.

(** the calls that store an item under the key *)
Definition writes_key (op : Op) (key : string) : bool :=
  match op with
  | OpAddOrUpdate k _ _ => String.eqb k key
  | OpSetData k _ _ => String.eqb k key
  | OpMemoize (Some k) _ _ => String.eqb k key
  | _ => false
  end.

(** the payloads [get_cache] returns, in the words of the specification:
    [data()] of every entry of the bucket, in bucket order, the absent
    ones filtered out *)
Definition present_payloads (now : Z) (h : list CacheItem) (bucket : list nat)
  : list PyValue :=
  filter is_not_None (map (data_at now h) bucket).

Definition opts_capacity_1 : Options :=
  {| max_size := 1; default_life_time := 10; max_life_time := 100 |}.

(** [set_data("A", 1)] then [set_data("B", 2)], capacity 1 *)
Definition two_set_data : State :=
  run opts_capacity_1
    [(0%Z, OpSetData "A" (PyInt 1) None);
     (0%Z, OpSetData "B" (PyInt 2) None)] empty_state.

Definition opts_capacity_2 : Options :=
  {| max_size := 2; default_life_time := 10; max_life_time := 100 |}.

Definition two_buckets : State :=
  run opts_capacity_2
    [(0%Z, OpAddOrUpdate "K" (PyInt 1) (Some 5%Z));
     (0%Z, OpAddOrUpdate "K" (PyStr "b") (Some 50%Z));
     (0%Z, OpAddOrUpdate "L" (PyInt 3) None)] empty_state.

Definition opts_default : Options :=
  {| max_size := 1000; default_life_time := 10; max_life_time := 100 |}.

Definition f1 : Function := {| fn_id := 1; fn_body := fun _ => PyStr "f1" |}.
Definition f2 : Function := {| fn_id := 2; fn_body := fun _ => PyStr "f2" |}.

(** two keys; the entry of K expires at 5, those of L at 5 and at 50 *)
Definition expiring_store : State :=
  run opts_default
    [(0%Z, OpAddOrUpdate "K" (PyInt 1) (Some 5%Z));
     (0%Z, OpAddOrUpdate "L" (PyInt 2) (Some 5%Z));
     (0%Z, OpAddOrUpdate "L" (PyInt 3) (Some 50%Z))] empty_state.

(** [f1], then [f2], registered under "Q" *)
Definition registered_twice : State :=
  snd (memoize opts_default 1 (Some "Q") (LtInt 5) f2
         (snd (memoize opts_default 0 (Some "Q") (LtInt 5) f1 empty_state))).

(** one key, one entry, which expires at 50 *)
Definition single_entry : State :=
  run opts_default [(0%Z, OpAddOrUpdate "K" (PyInt 1) (Some 50%Z))] empty_state.

(** ** The dispatcher's entry to memoization *)

(** [RoutingDispatcher.cache(life_time=0, key=None)], in
    [bclib/dispatcher/routing_dispatcher.py]: an omitted argument takes
    the default of the parameter, and the two are handed to
    [cache_decorator] in its own order. *)
Definition RoutingDispatcher_cache (opts : Options)
    (life_time : option LifeTimeArg) (key : option (option string))
  : result (Z -> Function -> State -> result Wrapper * State) :=
  let life_time :=
    match life_time with Some l => l | None => LtInt 0 end in
  let key := match key with Some k => k | None => None end in
  cache_decorator opts key life_time.

(** ** Ownership of the items *)

(** Every address in a bucket is the address of an item, no bucket holds
    an address twice, and no address is in two buckets; the keys are
    distinct. *)
Definition well_formed (s : State) : Prop :=
  NoDup (OrderedDict.keys (cache_dict s))
  /\ (forall key a,
        In a (bucket_of (cache_dict s) key) -> a < List.length (heap s))
  /\ (forall key, NoDup (bucket_of (cache_dict s) key))
  /\ (forall k1 k2 a,
        In a (bucket_of (cache_dict s) k1) ->
        In a (bucket_of (cache_dict s) k2) -> k1 = k2).

(** three entries under K, the first and the last with the same payload *)
Definition three_entries : State :=
  run opts_default
    [(0%Z, OpAddOrUpdate "K" (PyStr "a") (Some 50%Z));
     (0%Z, OpAddOrUpdate "K" (PyStr "b") (Some 50%Z));
     (0%Z, OpAddOrUpdate "K" (PyStr "a") (Some 50%Z));
     (0%Z, OpAddOrUpdate "L" (PyInt 7) (Some 50%Z))] empty_state.

(** puts under three keys with capacity 2, reads, a removal, a clean *)
Definition history_without_set_data : list (Z * Op) :=
  [(0%Z, OpAddOrUpdate "A" (PyInt 1) None);
   (1%Z, OpMemoize (Some "B") (LtInt 5) f1);
   (2%Z, OpGetCache "A");
   (3%Z, OpAddOrUpdate "C" (PyInt 3) None);
   (4%Z, OpRemove "A" (PyInt 1));
   (5%Z, OpCall {| wrapped := f1 |} []);
   (90%Z, OpClean);
   (91%Z, OpAddOrUpdate "D" PyNone None)].

(** capacity 1 and two keys: what two [set_data] leave *)
Definition over_full : State := two_set_data.

(** * Properties *)

(** ** Facts about the ordered dictionary *)

Module OrderedDictFacts.
Import OrderedDict.
Section Facts.
Context {V : Type}.
Implicit Types (d : OrderedDict.t V) (k key : string) (v : V).

Lemma contains_In d key : contains d key = true <-> In key (keys d).
Proof.
  unfold contains. rewrite existsb_exists. split.
  - intros (x & Hx & He). apply String.eqb_eq in He. now subst.
  - intros H. exists key. split; [assumption | apply String.eqb_refl].
Qed.

Lemma contains_false d key : contains d key = false <-> ~ In key (keys d).
Proof.
  rewrite <- contains_In. destruct (contains d key); split; congruence.
Qed.

Lemma get_None d key : get d key = None <-> ~ In key (keys d).
Proof.
  induction d as [|[k v] d IH]; simpl.
  - tauto.
  - destruct (String.eqb_spec key k) as [->|Hne].
    + split; [discriminate | intros H; exfalso; apply H; now left].
    + rewrite IH. split; [intros H [E|I]; [congruence | tauto] | tauto].
Qed.

Lemma get_contains d key :
  contains d key = true <-> exists v, get d key = Some v.
Proof.
  rewrite contains_In. destruct (get d key) eqn:E.
  - split; [eauto|]. intros _.
    destruct (in_dec string_dec key (keys d)) as [i|n]; [assumption|].
    apply get_None in n. congruence.
  - apply get_None in E. split; [tauto | intros [v Hv]; discriminate].
Qed.

Lemma get_In d key v : get d key = Some v -> In (key, v) d.
Proof.
  induction d as [|[k w] d IH]; simpl; [discriminate|].
  destruct (String.eqb_spec key k) as [->|Hne].
  - intros [= ->]. now left.
  - intros H. right. auto.
Qed.

Lemma In_get d key v : NoDup (keys d) -> In (key, v) d -> get d key = Some v.
Proof.
  induction d as [|[k w] d IH]; simpl; [tauto|].
  intros Hnd [E|I].
  - injection E as -> ->. now rewrite String.eqb_refl.
  - inversion Hnd as [|? ? Hk Hd]; subst.
    destruct (String.eqb_spec key k) as [->|Hne]; [|auto].
    exfalso. apply Hk. change k with (fst (k, v)). now apply in_map.
Qed.

Lemma keys_app d1 d2 : keys (d1 ++ d2) = keys d1 ++ keys d2.
Proof. apply map_app. Qed.

Lemma keys_pop d key :
  keys (pop d key) = filter (fun x => negb (String.eqb key x)) (keys d).
Proof.
  unfold pop, keys. induction d as [|[k v] d IH]; simpl; [reflexivity|].
  destruct (String.eqb key k); simpl; now rewrite IH.
Qed.

Lemma pop_absent d key : ~ In key (keys d) -> pop d key = d.
Proof.
  unfold pop. induction d as [|[k v] d IH]; simpl; [reflexivity|].
  intros H. destruct (String.eqb_spec key k) as [->|Hne]; simpl.
  - exfalso. apply H. now left.
  - f_equal. apply IH. tauto.
Qed.

Lemma setitem_absent d key v :
  ~ In key (keys d) -> setitem d key v = d ++ [(key, v)].
Proof.
  induction d as [|[k w] d IH]; simpl; [reflexivity|].
  intros H. destruct (String.eqb_spec key k) as [->|Hne].
  - exfalso. apply H. now left.
  - f_equal. apply IH. tauto.
Qed.

Lemma keys_setitem_present d key v :
  In key (keys d) -> keys (setitem d key v) = keys d.
Proof.
  induction d as [|[k w] d IH]; simpl; [tauto|].
  destruct (String.eqb_spec key k) as [->|Hne]; simpl; [reflexivity|].
  intros [E|I]; [congruence|]. f_equal. auto.
Qed.

Lemma len_setitem_present d key v :
  In key (keys d) -> len (setitem d key v) = len d.
Proof.
  intros H. unfold len.
  rewrite <- (length_map fst (setitem d key v)), <- (length_map fst d).
  fold (keys (setitem d key v)). fold (keys d).
  now rewrite keys_setitem_present.
Qed.

Lemma get_setitem_same d key v : get (setitem d key v) key = Some v.
Proof.
  induction d as [|[k w] d IH]; simpl.
  - now rewrite String.eqb_refl.
  - destruct (String.eqb_spec key k) as [->|Hne]; simpl.
    + now rewrite String.eqb_refl.
    + destruct (String.eqb_spec key k); [congruence | assumption].
Qed.

Lemma get_setitem_other d key k v :
  k <> key -> get (setitem d key v) k = get d k.
Proof.
  intros Hne. induction d as [|[k' w] d IH]; simpl.
  - destruct (String.eqb_spec k key); [congruence | reflexivity].
  - destruct (String.eqb_spec key k') as [->|Hne']; simpl.
    + destruct (String.eqb_spec k k'); [congruence | reflexivity].
    + destruct (String.eqb_spec k k'); [reflexivity | assumption].
Qed.

Lemma pop_setitem d key v : pop (setitem d key v) key = pop d key.
Proof.
  unfold pop. induction d as [|[k w] d IH]; simpl.
  - now rewrite String.eqb_refl.
  - destruct (String.eqb_spec key k) as [->|Hne]; simpl.
    + now rewrite String.eqb_refl.
    + destruct (String.eqb_spec key k); [congruence|]. simpl. now f_equal.
Qed.

(** assigning a key and moving it to the end: whatever the key held and
    wherever it stood, it is now the last one *)
Lemma move_to_end_setitem d key v :
  move_to_end (setitem d key v) key = pop d key ++ [(key, v)].
Proof.
  unfold move_to_end. now rewrite get_setitem_same, pop_setitem.
Qed.

Lemma keys_move_to_end d key :
  In key (keys d) ->
  keys (move_to_end d key)
  = filter (fun x => negb (String.eqb key x)) (keys d) ++ [key].
Proof.
  intros H. unfold move_to_end.
  apply contains_In, get_contains in H. destruct H as [v ->].
  now rewrite keys_app, keys_pop.
Qed.

Lemma get_pop_same d key : get (pop d key) key = None.
Proof.
  apply get_None. rewrite keys_pop, filter_In.
  intros [_ H]. now rewrite String.eqb_refl in H.
Qed.

Lemma get_pop_other d key k : k <> key -> get (pop d key) k = get d k.
Proof.
  intros Hne. unfold pop. induction d as [|[k' w] d IH]; simpl; [reflexivity|].
  destruct (String.eqb_spec key k') as [->|Hne']; simpl.
  - destruct (String.eqb_spec k k'); [congruence | assumption].
  - now rewrite IH.
Qed.

Lemma get_app d1 d2 key :
  get (d1 ++ d2) key
  = match get d1 key with Some v => Some v | None => get d2 key end.
Proof.
  induction d1 as [|[k w] d1 IH]; simpl; [reflexivity|].
  now destruct (String.eqb key k).
Qed.

Lemma get_move_to_end d key k : get (move_to_end d key) k = get d k.
Proof.
  unfold move_to_end. destruct (get d key) as [v|] eqn:E; [|reflexivity].
  rewrite get_app. destruct (String.eqb_spec k key) as [->|Hne].
  - rewrite get_pop_same. simpl. now rewrite String.eqb_refl.
  - rewrite get_pop_other by assumption.
    destruct (get d k); [reflexivity|]. simpl.
    destruct (String.eqb_spec k key); [congruence | reflexivity].
Qed.
End Facts.
End OrderedDictFacts.

(** ** Facts about lists used below *)

Lemma without_notin key ks : ~ In key (without key ks).
Proof.
  unfold without. rewrite filter_In. intros [_ H].
  now rewrite String.eqb_refl in H.
Qed.

Lemma without_absent key ks : ~ In key ks -> without key ks = ks.
Proof.
  unfold without. induction ks as [|x ks IH]; simpl; [reflexivity|].
  intros H. destruct (String.eqb_spec key x) as [->|Hne]; simpl.
  - exfalso. apply H. now left.
  - f_equal. apply IH. tauto.
Qed.

Lemma filter_filter {A : Type} (p q : A -> bool) (l : list A) :
  filter p (filter q l) = filter (fun x => q x && p x) l.
Proof.
  induction l as [|x l IH]; simpl; [reflexivity|].
  destruct (q x); simpl; [destruct (p x)|]; now rewrite IH.
Qed.

Lemma map_fst_filter {A B : Type} (q : A -> bool) (l : list (A * B)) :
  map fst (filter (fun p => q (fst p)) l) = filter q (map fst l).
Proof.
  induction l as [|[a b] l IH]; simpl; [reflexivity|].
  destruct (q a); simpl; now rewrite IH.
Qed.

Lemma NoDup_tl {A : Type} (l : list A) : NoDup l -> NoDup (tl l).
Proof. destruct l; simpl; [auto | now inversion 1]. Qed.

Lemma NoDup_move_last key ks : NoDup ks -> NoDup (without key ks ++ [key]).
Proof.
  intros H. apply NoDup_app; repeat split.
  - now apply NoDup_filter.
  - constructor; [simpl; tauto | constructor].
  - intros x Hx [<-|[]]. now apply without_notin in Hx.
Qed.

Lemma StronglySorted_map_filter {A : Type} (f : A -> nat) (q : A -> bool) l :
  StronglySorted lt (map f l) -> StronglySorted lt (map f (filter q l)).
Proof.
  induction l as [|x l IH]; simpl; [auto|].
  intros H. apply StronglySorted_inv in H as [Hs Hf].
  destruct (q x); simpl; [|auto].
  constructor; [auto|].
  rewrite Forall_forall in *. intros y Hy. apply Hf.
  rewrite in_map_iff in *. destruct Hy as (z & <- & Hz).
  exists z. split; [reflexivity|]. now apply filter_In in Hz.
Qed.

Lemma StronglySorted_snoc (l : list nat) (n : nat) :
  StronglySorted lt l -> Forall (fun x => x < n) l -> StronglySorted lt (l ++ [n]).
Proof.
  induction l as [|x l IH]; simpl; intros Hs Hf.
  - repeat constructor.
  - apply StronglySorted_inv in Hs as [Hs Hx]. inversion Hf; subst.
    constructor; [auto|].
    apply Forall_app. split; [assumption | repeat constructor; assumption].
Qed.

Lemma StronglySorted_tl (l : list nat) :
  StronglySorted lt l -> StronglySorted lt (tl l).
Proof.
  destruct l; simpl; [auto|]. intros H. now apply StronglySorted_inv in H.
Qed.

(** ** What each operation does to the dictionary *)

Import OrderedDict OrderedDictFacts.

Lemma pop_if_contains {V : Type} (d : OrderedDict.t V) key :
  (if contains d key then pop d key else d) = pop d key.
Proof.
  destruct (contains d key) eqn:E; [reflexivity|].
  symmetry. apply pop_absent. now apply contains_false.
Qed.

Lemma add_to_cache_dict opts key a s :
  _add_to_cache opts key a s =
  (UPDATED,
   with_dict s
     (if contains (cache_dict s) key
      then pop (cache_dict s) key ++ [(key, bucket_of (cache_dict s) key ++ [a])]
      else if (Z.of_nat (S (len (cache_dict s))) <=? max_size opts)%Z
           then cache_dict s ++ [(key, [a])]
           else tl (cache_dict s ++ [(key, [a])]))).
Proof.
  unfold _add_to_cache. destruct (contains (cache_dict s) key) eqn:E.
  - now rewrite move_to_end_setitem.
  - apply contains_false in E. rewrite (setitem_absent _ _ _ E).
    unfold _is_valid_size, _size, with_dict, len, popitem_first.
    cbn [cache_dict heap fn_cache calls].
    rewrite length_app. cbn [List.length]. rewrite Nat.add_1_r.
    now destruct (Z.of_nat (S (List.length (cache_dict s))) <=? max_size opts)%Z.
Qed.

Lemma set_data_dict opts now key payload lt s :
  set_data opts now key payload lt s =
  (SET,
   with_dict (snd (alloc (CostumCacheItem opts now payload lt) s))
     (pop (cache_dict s) key ++ [(key, [List.length (heap s)])])).
Proof.
  unfold set_data; simpl. now rewrite move_to_end_setitem.
Qed.

Lemma reset_fold (ks : list string) (d : OrderedDict.t (list nat)) :
  fold_left (fun d key => if contains d key then pop d key else d) ks d
  = filter (fun p => negb (existsb (String.eqb (fst p)) ks)) d.
Proof.
  revert d. induction ks as [|k ks IH]; intros d; simpl.
  - induction d as [|p d IHd]; simpl; [reflexivity | now rewrite <- IHd].
  - rewrite pop_if_contains, IH. unfold pop. rewrite filter_filter.
    apply filter_ext. intros [k' b]; simpl.
    rewrite (String.eqb_sym k' k). now rewrite negb_orb.
Qed.

Lemma valid_list_fold (p : nat -> bool) (b acc : list nat) :
  fold_left (fun acc item => if p item then acc ++ [item] else acc) b acc
  = acc ++ filter p b.
Proof.
  revert acc. induction b as [|x b IH]; intros acc; simpl.
  - now rewrite app_nil_r.
  - rewrite IH. destruct (p x); [|reflexivity].
    now rewrite <- app_assoc.
Qed.

Lemma clean_fold now h (d d1 d2 acc : OrderedDict.t (list nat)) :
  NoDup (keys d) -> d = d1 ++ d2 -> incl (keys acc) (keys d1) ->
  fold_left
    (fun valid key =>
       let valid_cache_list :=
         fold_left
           (fun acc item =>
              if is_not_None (data_at now h item) then acc ++ [item] else acc)
           (bucket_of d key) [] in
       if Nat.ltb 0 (List.length valid_cache_list)
       then setitem valid key valid_cache_list
       else valid)
    (keys d2) acc
  = acc ++ clean_spec now h d2.
Proof.
  intros Hnd. revert d1 acc. induction d2 as [|[k b] d2 IH]; intros d1 acc Hd Hacc.
  - simpl. now rewrite app_nil_r.
  - simpl. rewrite valid_list_fold. simpl.
    assert (Hb : bucket_of d k = b).
    { unfold bucket_of. rewrite (In_get d k b Hnd); [reflexivity|].
      subst d. apply in_or_app. right. now left. }
    rewrite Hb.
    assert (Hk : ~ In k (keys d1)).
    { subst d. rewrite keys_app in Hnd. simpl in Hnd.
      now apply NoDup_remove_2 in Hnd; rewrite in_app_iff in Hnd; tauto. }
    assert (Hd' : d = (d1 ++ [(k, b)]) ++ d2) by now rewrite <- app_assoc.
    unfold clean_spec; simpl. fold (clean_spec now h d2).
    destruct (Nat.ltb 0 _) eqn:E.
    + rewrite setitem_absent by (intros Hin; apply Hk, Hacc, Hin).
      rewrite (IH (d1 ++ [(k, b)])); [now rewrite <- app_assoc | assumption |].
      rewrite !keys_app. simpl. intros x Hx. apply in_app_iff in Hx.
      apply in_app_iff. destruct Hx as [Hx|Hx]; [left; auto | right; exact Hx].
    + apply (IH (d1 ++ [(k, b)])); [assumption|].
      rewrite keys_app. intros x Hx. apply in_app_iff. left. auto.
Qed.

Lemma clean_dict now s :
  NoDup (keys (cache_dict s)) ->
  _clean now s = (CLEANED, with_dict s (clean_spec now (heap s) (cache_dict s))).
Proof.
  intros Hnd.
  pose proof (clean_fold now (heap s) (cache_dict s) [] (cache_dict s) empty
                Hnd eq_refl (incl_refl _)) as H.
  unfold _clean. cbv zeta in *. now rewrite H.
Qed.

(** ** Recency: the order of the dictionary and the history of calls *)

Lemma last_touch_snoc h e key :
  last_touch (h ++ [e]) key
  = if touches_key (snd e) key then S (List.length h) else last_touch h key.
Proof.
  induction h as [|x h IH]; simpl.
  - now destruct (touches_key (snd e) key).
  - rewrite IH. destruct (touches_key (snd e) key); [reflexivity|].
    reflexivity.
Qed.

Lemma last_touch_le h key : last_touch h key <= List.length h.
Proof.
  induction h as [|x h IH]; simpl; [lia|].
  destruct (last_touch h key); [destruct (touches_key (snd x) key)|]; lia.
Qed.

Lemma run_snoc opts h e s : run opts (h ++ [e]) s = step opts (run opts h s) e.
Proof. unfold run. now rewrite fold_left_app. Qed.

Lemma tl_map {A B : Type} (f : A -> B) (l : list A) : tl (map f l) = map f (tl l).
Proof. now destruct l. Qed.

Lemma filter_true {A : Type} (l : list A) : filter (fun _ => true) l = l.
Proof. induction l; simpl; congruence. Qed.

Lemma filter_false {A : Type} (l : list A) : filter (fun _ => false) l = [].
Proof. induction l; simpl; congruence. Qed.

Lemma keys_clean_spec now h (d : OrderedDict.t (list nat)) :
  NoDup (keys d) ->
  keys (clean_spec now h d)
  = filter (fun k => Nat.ltb 0 (List.length
              (filter (fun a => is_not_None (data_at now h a)) (bucket_of d k))))
      (keys d).
Proof.
  intros Hnd. unfold keys at 2. rewrite <- map_fst_filter.
  unfold clean_spec, keys.
  assert (E : forall (d0 : OrderedDict.t (list nat)),
             (forall p, In p d0 -> bucket_of d (fst p) = snd p) ->
             map fst
               (filter (fun p => Nat.ltb 0 (List.length (snd p)))
                  (map (fun p => (fst p,
                          filter (fun a => is_not_None (data_at now h a)) (snd p)))
                     d0))
             = map fst
                 (filter (fun p => Nat.ltb 0 (List.length
                     (filter (fun a => is_not_None (data_at now h a))
                        (bucket_of d (fst p))))) d0)).
  { induction d0 as [|[k b] d0 IH]; intros Hall; [reflexivity|].
    pose proof (Hall (k, b) (or_introl eq_refl)) as Hb. cbn [fst snd] in Hb.
    cbn [map filter fst snd]. rewrite Hb.
    destruct (Nat.ltb 0 _); cbn [map fst]; rewrite IH; auto;
      intros p Hp; apply Hall; now right. }
  apply E. intros [k b] Hp. unfold bucket_of. simpl.
  now rewrite (In_get d k b Hnd Hp).
Qed.

Lemma get_data_dict now a args s :
  cache_dict (snd (get_data now a args s)) = cache_dict s.
Proof.
  unfold get_data. destruct (nth_error (heap s) a) as [it|]; [|reflexivity].
  destruct (data now it); try reflexivity.
  now destruct (item_function it).
Qed.

Lemma wrapper_call_dict now w args s :
  cache_dict (snd (wrapper_call now w args s)) = cache_dict s.
Proof.
  unfold wrapper_call. destruct (lookup_fn _ _); [|reflexivity].
  apply get_data_dict.
Qed.

(** the keys after a put, in the three cases of [_add_to_cache] *)
Lemma add_to_cache_keys opts key a s :
  let K := keys (cache_dict s) in
  let K' := keys (cache_dict (snd (_add_to_cache opts key a s))) in
  K' = without key K ++ [key] \/ K' = tl (without key K ++ [key]).
Proof.
  intros K K'. subst K K'. rewrite add_to_cache_dict. cbn [snd with_dict cache_dict].
  destruct (contains (cache_dict s) key) eqn:E.
  - left. rewrite keys_app, keys_pop. reflexivity.
  - apply contains_false in E. rewrite (without_absent _ _ E).
    destruct (Z.leb _ _); [left | right]; unfold keys.
    + now rewrite map_app.
    + now rewrite <- tl_map, map_app.
Qed.

Lemma step_keys opts s e :
  NoDup (keys (cache_dict s)) ->
  let K := keys (cache_dict s) in
  let K' := keys (cache_dict (step opts s e)) in
  match touches (snd e) with
  | Some key =>
      K' = without key K ++ [key] \/ K' = tl (without key K ++ [key])
      \/ (K' = K /\ ~ In key K)
  | None => exists q, K' = filter q K
  end.
Proof.
  intros Hnd K K'. subst K K'. destruct e as [now op].
  destruct op as [key p lt|key p lt|key|key p|ks| |key lt f|w args];
    cbn [snd touches step].
  - unfold add_or_update. cbn [alloc].
    destruct (add_to_cache_keys opts key (List.length (heap s))
                {| cache_dict := cache_dict s;
                   heap := heap s ++ [CostumCacheItem opts now p lt];
                   fn_cache := fn_cache s; calls := calls s |}) as [H|H];
      cbn [cache_dict] in H; rewrite H; auto.
  - rewrite set_data_dict. cbn [snd with_dict cache_dict].
    left. now rewrite keys_app, keys_pop.
  - unfold get_cache. destruct (contains (cache_dict s) key) eqn:E;
      cbn [snd with_dict cache_dict].
    + left. apply keys_move_to_end. now apply contains_In.
    + right. right. split; [reflexivity | now apply contains_false].
  - exists (fun _ => true). rewrite filter_true. unfold remove.
    destruct (contains (cache_dict s) key) eqn:E; [|reflexivity].
    destruct (find _ _); [|reflexivity]. cbn [snd with_dict cache_dict].
    apply keys_setitem_present. now apply contains_In.
  - unfold reset. destruct ks as [ks|].
    + destruct (Nat.eqb (List.length ks) 0); cbn [snd with_dict cache_dict].
      * exists (fun _ => false). now rewrite filter_false.
      * rewrite reset_fold. eexists.
        exact (map_fst_filter
                 (fun k => negb (existsb (String.eqb k) ks)) (cache_dict s)).
    + exists (fun _ => false). now rewrite filter_false.
  - unfold clean. rewrite (clean_dict now s Hnd). cbn [snd with_dict cache_dict].
    eexists. now apply keys_clean_spec.
  - unfold memoize, cache_decorator, resolve_life_time.
    assert (Hd : forall key z,
               let K' := keys (cache_dict (snd (decorator opts (Some key) z now f s))) in
               K' = without key (keys (cache_dict s)) ++ [key]
               \/ K' = tl (without key (keys (cache_dict s)) ++ [key])).
    { clear key. intros key z. unfold decorator. cbn [alloc].
      destruct (_add_to_cache opts key _ _) as [st s3] eqn:Ea.
      cbn [snd]. change s3 with (snd (st, s3)). rewrite <- Ea.
      match goal with
      | |- context [_add_to_cache opts key ?a ?st0] =>
          exact (add_to_cache_keys opts key a st0)
      end. }
    destruct key as [key|].
    + destruct lt as [|z|str]; cbn [snd].
      * destruct (Hd key (default_life_time opts)) as [H|H]; rewrite H; auto.
      * destruct (Hd key (Z.min z (max_life_time opts))) as [H|H]; rewrite H; auto.
      * exists (fun _ => true). now rewrite filter_true.
    + exists (fun _ => true). rewrite filter_true.
      destruct lt; reflexivity.
  - exists (fun _ => true). now rewrite filter_true, wrapper_call_dict.
Qed.

Lemma step_NoDup opts s e :
  NoDup (keys (cache_dict s)) -> NoDup (keys (cache_dict (step opts s e))).
Proof.
  intros Hnd. pose proof (step_keys opts s e Hnd) as H. cbv zeta in H.
  destruct (touches (snd e)) as [key|].
  - destruct H as [-> | [-> | [-> _]]].
    + now apply NoDup_move_last.
    + now apply NoDup_tl, NoDup_move_last.
    + assumption.
  - destruct H as [q ->]. now apply NoDup_filter.
Qed.

Lemma run_NoDup opts h s :
  NoDup (keys (cache_dict s)) -> NoDup (keys (cache_dict (run opts h s))).
Proof.
  revert s. induction h as [|e h IH]; intros s Hnd; simpl; [assumption|].
  apply IH. now apply step_NoDup.
Qed.

Lemma reachable_NoDup opts s : reachable opts s -> NoDup (keys (cache_dict s)).
Proof. intros [h ->]. apply run_NoDup. constructor. Qed.

Lemma StronglySorted_lt_map_NoDup {A : Type} (f : A -> nat) (l : list A) :
  StronglySorted lt (map f l) -> NoDup l.
Proof.
  induction l as [|x l IH]; simpl; intros H; [constructor|].
  apply StronglySorted_inv in H as [Hs Hf]. constructor; [|auto].
  intros Hin. rewrite Forall_forall in Hf.
  specialize (Hf (f x) (in_map f l x Hin)). lia.
Qed.

(** In every state reached from the empty store, the dictionary lists its
    keys from the least recently touched to the most recently touched. *)
Lemma recency_order opts h :
  StronglySorted lt
    (map (last_touch h) (keys (cache_dict (run opts h empty_state)))).
Proof.
  induction h as [|e h IH] using rev_ind; [constructor|].
  rewrite run_snoc. set (s := run opts h empty_state) in *.
  pose proof (StronglySorted_lt_map_NoDup _ _ IH) as Hnd.
  pose proof (step_keys opts s e Hnd) as H. cbv zeta in H.
  assert (Hle : forall l, Forall (fun x => x < S (List.length h))
                            (map (last_touch h) l)).
  { intros l. apply Forall_forall. intros x Hx. apply in_map_iff in Hx.
    destruct Hx as (k & <- & _). pose proof (last_touch_le h k). lia. }
  destruct (touches (snd e)) as [key|] eqn:Et.
  - assert (Hkey : last_touch (h ++ [e]) key = S (List.length h)).
    { rewrite last_touch_snoc. unfold touches_key. rewrite Et.
      now rewrite String.eqb_refl. }
    assert (Hother : forall l, ~ In key l ->
               map (last_touch (h ++ [e])) l = map (last_touch h) l).
    { intros l Hl. apply map_ext_in. intros k Hk. rewrite last_touch_snoc.
      unfold touches_key. rewrite Et.
      destruct (String.eqb_spec key k); [subst; tauto | reflexivity]. }
    assert (Hmoved : StronglySorted lt
              (map (last_touch (h ++ [e]))
                 (without key (keys (cache_dict s)) ++ [key]))).
    { rewrite map_app. cbn [map]. rewrite Hkey.
      rewrite (Hother _ (without_notin key _)).
      apply StronglySorted_snoc; [|apply Hle].
      now apply StronglySorted_map_filter. }
    destruct H as [-> | [-> | [-> Hnot]]].
    + assumption.
    + rewrite <- tl_map. now apply StronglySorted_tl.
    + now rewrite (Hother _ Hnot).
  - destruct H as [q ->].
    apply StronglySorted_map_filter.
    erewrite map_ext; [exact IH|]. intros k. rewrite last_touch_snoc.
    unfold touches_key. now rewrite Et.
Qed.

(** ** The size of the store *)

Lemma len_keys {V : Type} (d : OrderedDict.t V) : List.length (keys d) = len d.
Proof. apply length_map. Qed.

Lemma len_pop_present {V : Type} (d : OrderedDict.t V) key :
  NoDup (keys d) -> In key (keys d) -> S (len (pop d key)) = len d.
Proof.
  unfold pop, len. induction d as [|[k b] d IH]; simpl; [tauto|].
  intros Hnd Hin. inversion Hnd; subst.
  destruct (String.eqb_spec key k) as [->|Hne]; simpl.
  - fold (pop d k). now rewrite pop_absent.
  - destruct Hin as [E|Hin]; [congruence|]. now rewrite IH.
Qed.

Lemma len_move_to_end {V : Type} (d : OrderedDict.t V) key :
  NoDup (keys d) -> len (move_to_end d key) = len d.
Proof.
  intros Hnd. unfold move_to_end. destruct (get d key) as [v|] eqn:E; [|reflexivity].
  assert (Hin : In key (keys d)) by (apply contains_In, get_contains; eauto).
  rewrite <- (len_pop_present d key Hnd Hin). unfold len.
  rewrite length_app. simpl. lia.
Qed.

Lemma len_add_to_cache opts key a s :
  NoDup (keys (cache_dict s)) ->
  (Z.of_nat (len (cache_dict s)) <= max_size opts)%Z ->
  (Z.of_nat (len (cache_dict (snd (_add_to_cache opts key a s))))
   <= max_size opts)%Z.
Proof.
  intros Hnd Hs. rewrite add_to_cache_dict. cbn [snd with_dict cache_dict].
  destruct (contains (cache_dict s) key) eqn:E.
  - apply contains_In in E.
    rewrite <- (len_pop_present _ key Hnd E) in Hs. unfold len in *.
    rewrite length_app. simpl. lia.
  - destruct (Z.leb_spec (Z.of_nat (S (len (cache_dict s)))) (max_size opts)).
    + unfold len in *. rewrite length_app. simpl.
      rewrite Nat.add_1_r. assumption.
    + unfold len in *. destruct (cache_dict s); simpl in *; [lia|].
      rewrite length_app. simpl. lia.
Qed.

(** Every call but [set_data] leaves the store within the capacity. *)
Lemma step_size_le opts s e :
  NoDup (keys (cache_dict s)) ->
  is_set_data (snd e) = false ->
  (Z.of_nat (size s) <= max_size opts)%Z ->
  (Z.of_nat (size (step opts s e)) <= max_size opts)%Z.
Proof.
  intros Hnd Hop Hs. unfold size, _size in *.
  assert (Hfilter : forall q (d' : OrderedDict.t (list nat)),
            keys d' = filter q (keys (cache_dict s)) ->
            (Z.of_nat (len d') <= max_size opts)%Z).
  { intros q d' H. rewrite <- len_keys, H.
    pose proof (filter_length_le q (keys (cache_dict s))) as Hf.
    rewrite len_keys in Hf. lia. }
  pose proof (step_keys opts s e Hnd) as H. cbv zeta in H.
  destruct e as [now op].
  destruct op as [key p lt|key p lt|key|key p|ks| |key lt f|w args];
    cbn [snd touches step is_set_data] in *; try discriminate.
  - unfold add_or_update. cbn [alloc]. now apply len_add_to_cache.
  - clear H. unfold get_cache.
    destruct (contains (cache_dict s) key); cbn [snd with_dict cache_dict].
    + now rewrite len_move_to_end.
    + assumption.
  - destruct H as [q H]. eauto.
  - destruct H as [q H]. eauto.
  - destruct H as [q H]. eauto.
  - clear H. unfold memoize, cache_decorator, resolve_life_time, decorator.
    destruct lt as [|z|str]; destruct key as [key|]; cbn [snd alloc]; try assumption.
    + destruct (_add_to_cache opts key _ _) as [st s3] eqn:Ea. cbn [snd].
      change s3 with (snd (st, s3)). rewrite <- Ea. now apply len_add_to_cache.
    + destruct (_add_to_cache opts key _ _) as [st s3] eqn:Ea. cbn [snd].
      change s3 with (snd (st, s3)). rewrite <- Ea. now apply len_add_to_cache.
  - now rewrite wrapper_call_dict.
Qed.

(** X6.  Without [set_data], and with a capacity that is not negative,
    the store never holds more keys than the capacity: after every call
    of every sequence of the other operations from the empty store. *)
Lemma size_le_capacity_without_set_data opts h :
  (0 <= max_size opts)%Z ->
  forallb (fun e => negb (is_set_data (snd e))) h = true ->
  (Z.of_nat (size (run opts h empty_state)) <= max_size opts)%Z.
Proof.
  intros Hcap. induction h as [|e h IH] using rev_ind; intros Hh.
  - exact Hcap.
  - rewrite forallb_app in Hh. apply andb_prop in Hh as [Hh He].
    simpl in He. rewrite andb_true_r in He. apply negb_true_iff in He.
    rewrite run_snoc. apply step_size_le; auto.
    apply run_NoDup. constructor.
Qed.

(** ** The claims *)

(** C1.  The claim: after every call of every sequence of public
    operations the store holds at most [capacity] keys.  [set_data]
    assigns its key without the capacity check that [_add_to_cache] makes:
    with capacity 1, [set_data("A", 1)] then [set_data("B", 2)] from the
    empty store leaves two keys. *)
Theorem C1_set_data_exceeds_capacity :
  keys (cache_dict two_set_data) = ["A"; "B"]
  /\ size two_set_data = 2
  /\ (max_size opts_capacity_1 < Z.of_nat (size two_set_data))%Z.
Proof. repeat split. Qed.

(** C2.  When a put of a new key takes the number of keys over the
    capacity, exactly one bucket leaves the store: the first of the order
    with the new bucket appended, every other bucket stays in its place,
    and every bucket that stays, other than the new one, was last touched
    after the evicted one.  A bucket is touched by [add_or_update],
    [set_data], a registration and a [get_cache] of its key; touches,
    insertion included, are numbered by the calls of the history, so
    buckets never touched again are ordered by insertion.  With capacity
    2, put(A), put(B), put(C) leaves exactly the keys B and C. *)
Theorem C2_put_evicts_least_recently_touched :
  (forall opts h st key a,
      cache_dict st = cache_dict (run opts h empty_state) ->
      ~ In key (keys (cache_dict st)) ->
      (max_size opts < Z.of_nat (S (_size st)))%Z ->
      exists evicted rest,
        cache_dict st ++ [(key, [a])] = evicted :: rest
        /\ _add_to_cache opts key a st = (UPDATED, with_dict st rest)
        /\ _size (with_dict st rest) = _size st
        /\ Forall (fun k => k = key \/ last_touch h (fst evicted) < last_touch h k)
             (keys rest))
  /\ (forall pa pb pc la lb lc ta tb tc,
        keys (cache_dict
                (run opts_capacity_2
                   [(ta, OpAddOrUpdate "A" pa la);
                    (tb, OpAddOrUpdate "B" pb lb);
                    (tc, OpAddOrUpdate "C" pc lc)] empty_state))
        = ["B"; "C"]).
Proof.
  split; [|reflexivity].
  intros opts h st key a Hst Hnew Hover.
  pose proof (recency_order opts h) as Hsorted. rewrite <- Hst in Hsorted.
  rewrite add_to_cache_dict.
  apply contains_false in Hnew. rewrite Hnew. apply contains_false in Hnew.
  unfold _size in *.
  destruct (Z.leb_spec (Z.of_nat (S (len (cache_dict st)))) (max_size opts));
    [lia|].
  destruct (cache_dict st) as [|[k0 b0] d] eqn:Ed.
  - exists (key, [a]), []. repeat split. constructor.
  - exists (k0, b0), (d ++ [(key, [a])]). cbn [app tl fst].
    repeat split.
    + unfold with_dict, len. cbn [cache_dict]. rewrite length_app. simpl. lia.
    + rewrite keys_app. apply Forall_app. split.
      * simpl in Hsorted. apply StronglySorted_inv in Hsorted as [_ Hf].
        rewrite Forall_map in Hf. fold (keys d) in Hf.
        eapply Forall_impl; [|exact Hf]. intros k Hk. now right.
      * repeat constructor.
Qed.

(** capacity 2, A and B stored: putting C evicts A *)
Lemma C2_put_evicts_least_recently_touched_witness :
  exists evicted rest,
    cache_dict (run opts_capacity_2
                  [(0%Z, OpAddOrUpdate "A" (PyInt 1) None);
                   (1%Z, OpAddOrUpdate "B" (PyInt 2) None)] empty_state)
      ++ [("C", [2])] = evicted :: rest
    /\ fst evicted = "A" /\ keys rest = ["B"; "C"].
Proof.
  destruct (proj1 C2_put_evicts_least_recently_touched opts_capacity_2
              [(0%Z, OpAddOrUpdate "A" (PyInt 1) None);
               (1%Z, OpAddOrUpdate "B" (PyInt 2) None)]
              (run opts_capacity_2
                 [(0%Z, OpAddOrUpdate "A" (PyInt 1) None);
                  (1%Z, OpAddOrUpdate "B" (PyInt 2) None)] empty_state)
              "C" 2 eq_refl)
    as (evicted & rest & Hsplit & _).
  - simpl. intros [H|[H|[]]]; discriminate.
  - simpl. lia.
  - exists evicted, rest. split; [exact Hsplit|].
    simpl in Hsplit. injection Hsplit as <- <-. split; reflexivity.
Defined.

Lemma map_filter_comm {A B : Type} (f : A -> B) (p : B -> bool) (l : list A) :
  map f (filter (fun x => p (f x)) l) = filter p (map f l).
Proof.
  induction l as [|x l IH]; simpl; [reflexivity|].
  destruct (p (f x)); simpl; now rewrite IH.
Qed.

(** C3.  [get_cache(key)] returns None when the key is not in the store
    (and changes nothing); when the key is present with bucket [bucket],
    it moves the bucket to the newest position of the order and returns
    the non-absent [data()] payloads of the entries in bucket order, or
    None, not an empty list, when there is none. *)
Theorem C3_get_cache_spec now key s :
  (~ In key (keys (cache_dict s)) -> get_cache now key s = (None, s))
  /\ (forall bucket,
        get (cache_dict s) key = Some bucket ->
        let payloads := present_payloads now (heap s) bucket in
        let s' := with_dict s (pop (cache_dict s) key ++ [(key, bucket)]) in
        get_cache now key s
        = (match payloads with [] => None | _ :: _ => Some payloads end, s')
        /\ last (keys (cache_dict s')) key = key
        /\ ~ In key (removelast (keys (cache_dict s')))
        /\ Forall (fun v => v <> PyNone) payloads).
Proof.
  split.
  - intros H. apply contains_false in H. unfold get_cache. now rewrite H.
  - intros bucket Hget payloads s'.
    assert (Hc : contains (cache_dict s) key = true)
      by (apply get_contains; eauto).
    repeat split.
    + unfold get_cache. rewrite Hc.
      unfold bucket_of. rewrite get_move_to_end, Hget.
      rewrite (map_filter_comm (data_at now (heap s)) is_not_None).
      fold (present_payloads now (heap s) bucket). fold payloads.
      unfold move_to_end. rewrite Hget. fold s'.
      now destruct payloads.
    + subst s'. cbn [with_dict cache_dict]. rewrite keys_app. simpl.
      apply last_last.
    + subst s'. cbn [with_dict cache_dict]. rewrite keys_app. simpl.
      rewrite removelast_last, keys_pop. apply without_notin.
    + subst payloads. unfold present_payloads. apply Forall_forall.
      intros v Hv. apply filter_In in Hv as [_ Hv]. now destruct v.
Qed.

(** at time 7 the first entry of K has expired: a miss on Z, a hit on K *)
Lemma C3_get_cache_spec_witness :
  get_cache 7 "Z" two_buckets = (None, two_buckets)
  /\ fst (get_cache 7 "K" two_buckets) = Some [PyStr "b"]
  /\ keys (cache_dict (snd (get_cache 7 "K" two_buckets))) = ["L"; "K"].
Proof.
  split; [|split].
  - apply (proj1 (C3_get_cache_spec 7 "Z" two_buckets)).
    simpl. intros [H|[H|[]]]; discriminate.
  - now rewrite (proj1 (proj2 (C3_get_cache_spec 7 "K" two_buckets) [0; 1] eq_refl)).
  - now rewrite (proj1 (proj2 (C3_get_cache_spec 7 "K" two_buckets) [0; 1] eq_refl)).
Defined.

(** *** Life time of a memoized entry *)

Lemma heap_add_to_cache opts key a s :
  heap (snd (_add_to_cache opts key a s)) = heap s
  /\ fn_cache (snd (_add_to_cache opts key a s)) = fn_cache s
  /\ calls (snd (_add_to_cache opts key a s)) = calls s.
Proof. rewrite add_to_cache_dict. repeat split. Qed.

(** what a registration that reaches the store leaves behind *)
Lemma memoize_ok opts now key lt z f s :
  resolve_life_time opts lt = Ok z ->
  let item := FunctionCacheItem opts now PyNone z f in
  let a := List.length (heap s) in
  let s2 := set_fn_cache f a (snd (alloc item s)) in
  memoize opts now (Some key) lt f s
  = (Ok {| wrapped := f |}, snd (_add_to_cache opts key a s2)).
Proof.
  intros Hr item a s2. unfold memoize, cache_decorator. rewrite Hr.
  unfold decorator. cbn [alloc]. fold item. fold a.
  change (set_fn_cache f a _) with s2.
  now destruct (_add_to_cache opts key a s2).
Qed.

Lemma memoize_heap opts now key lt z f s :
  resolve_life_time opts lt = Ok z ->
  let s' := snd (memoize opts now (Some key) lt f s) in
  heap s' = heap s ++ [FunctionCacheItem opts now PyNone z f]
  /\ fn_cache s' = (fn_id f, List.length (heap s)) :: fn_cache s
  /\ calls s' = calls s.
Proof.
  intros Hr s'. subst s'. rewrite (memoize_ok _ _ _ _ _ _ _ Hr). cbn [snd].
  destruct (heap_add_to_cache opts key (List.length (heap s))
              (set_fn_cache f (List.length (heap s))
                 (snd (alloc (FunctionCacheItem opts now PyNone z f) s))))
    as (-> & -> & ->).
  repeat split.
Qed.

Lemma nth_error_snoc {A : Type} (l : list A) (x : A) :
  nth_error (l ++ [x]) (List.length l) = Some x.
Proof. rewrite nth_error_app2 by lia. now rewrite Nat.sub_diag. Qed.

(** C4, refuted as stated.  With [max_life_time = 100] and
    [life_time = -5], [cache_decorator] resolves the effective life time
    to [min(-5, 100) = -5], which is not in [[0, 100]]; the entry itself,
    whose creation clamps, holds 0, which is not [min(-5, 100)]. *)
Lemma C4_negative_life_time :
  resolve_life_time opts_default (LtInt (-5)) = Ok (Z.min (-5) 100)
  /\ ~ (0 <= Z.min (-5) 100 <= max_life_time opts_default)%Z
  /\ option_map item_life_time
       (nth_error
          (heap (snd (memoize opts_default 0 (Some "Q") (LtInt (-5)) f1 empty_state)))
          0)
     = Some 0%Z
  /\ 0%Z <> Z.min (-5) (max_life_time opts_default).
Proof.
  split; [reflexivity|]. split; [simpl; lia|].
  split; [reflexivity | simpl; lia].
Qed.

(** The parameter's default is the string ["None"], not [None]: a call
    that omits [life_time] raises in [min]. *)
Lemma cache_decorator_omitted_life_time opts key :
  cache_decorator opts key life_time_default = Raise TypeError.
Proof. reflexivity. Qed.

(** C4, amended.  Given an integer [life_time], [cache_decorator] hands
    the entry [min(life_time, max_life_time)], which never exceeds
    [max_life_time] and lies in [[0, max_life_time]] when neither
    [life_time] nor [max_life_time] is negative, and this is then the life
    time the registered entry holds; given [None], it hands the entry
    [default_life_time]. *)
Theorem C4_effective_life_time opts z :
  resolve_life_time opts (LtInt z) = Ok (Z.min z (max_life_time opts))
  /\ resolve_life_time opts LtNone = Ok (default_life_time opts)
  /\ (Z.min z (max_life_time opts) <= max_life_time opts)%Z
  /\ ((0 <= z)%Z -> (0 <= max_life_time opts)%Z ->
      (0 <= Z.min z (max_life_time opts) <= max_life_time opts)%Z
      /\ forall now key f s,
           exists item,
             nth_error (heap (snd (memoize opts now (Some key) (LtInt z) f s)))
               (List.length (heap s)) = Some item
             /\ item_life_time item = Z.min z (max_life_time opts)
             /\ item_function item = Some f).
Proof.
  repeat split; try reflexivity; try lia.
  intros now key f s.
  destruct (memoize_heap opts now key (LtInt z) _ f s eq_refl) as (Hh & _).
  cbv zeta in Hh. rewrite Hh, nth_error_snoc. eexists. split; [reflexivity|].
  split; [|reflexivity]. simpl. unfold clamp_life_time. lia.
Qed.

(** a life time of 30 under a maximum of 100 *)
Lemma C4_effective_life_time_witness :
  (0 <= Z.min 30 (max_life_time opts_default) <= max_life_time opts_default)%Z
  /\ exists item,
       nth_error (heap (snd (memoize opts_default 0 (Some "Q") (LtInt 30) f1 empty_state)))
         0 = Some item
       /\ item_life_time item = 30%Z.
Proof.
  destruct (proj2 (proj2 (proj2 (C4_effective_life_time opts_default 30))))
    as [Hr He]; [lia | simpl; lia |].
  split; [exact Hr|].
  destruct (He 0%Z "Q" f1 empty_state) as (item & Hn & Hl & _).
  exists item. split; [exact Hn | exact Hl].
Defined.

(** *** Registration and its key *)

(** C5, refuted as stated.  The empty string is a key like any other:
    registration under it succeeds. *)
Lemma C5_empty_key_registers :
  fst (memoize opts_default 0 (Some "") (LtInt 0) f1 empty_state)
  = Ok {| wrapped := f1 |}
  /\ keys (cache_dict (snd (memoize opts_default 0 (Some "") (LtInt 0) f1 empty_state)))
     = [""].
Proof. split; reflexivity. Qed.

(** C5, amended.  With a life time that is an int or [None]:
    [cache_decorator] itself returns the decorator; applied to a function,
    the decorator raises ValueError("key is None!") when the key is
    [None], leaving the state as it was and having invoked no
    computation; for every string key, the empty one included, it returns
    the wrapper and invokes no computation. *)
Theorem C5_missing_key_fails_at_registration opts now lt z f s :
  resolve_life_time opts lt = Ok z ->
  (exists dec,
      cache_decorator opts None lt = Ok dec
      /\ dec now f s = (Raise (ValueError "key is None!"), s))
  /\ memoize opts now None lt f s = (Raise (ValueError "key is None!"), s)
  /\ forall key,
       fst (memoize opts now (Some key) lt f s) = Ok {| wrapped := f |}
       /\ calls (snd (memoize opts now (Some key) lt f s)) = calls s.
Proof.
  intros Hr. split; [|split].
  - exists (decorator opts None z). unfold cache_decorator. now rewrite Hr.
  - unfold memoize, cache_decorator. now rewrite Hr.
  - intros key. split.
    + now rewrite (memoize_ok _ _ _ _ _ _ _ Hr).
    + now destruct (memoize_heap opts now key lt z f s Hr) as (_ & _ & ->).
Qed.

(** registering under [None] and under "Q" *)
Lemma C5_missing_key_fails_at_registration_witness :
  memoize opts_default 0 None (LtInt 5) f1 empty_state
  = (Raise (ValueError "key is None!"), empty_state)
  /\ fst (memoize opts_default 0 (Some "Q") (LtInt 5) f1 empty_state)
     = Ok {| wrapped := f1 |}.
Proof.
  destruct (C5_missing_key_fails_at_registration opts_default 0 (LtInt 5) 5 f1
              empty_state eq_refl) as (_ & Hnone & Hsome).
  split; [exact Hnone | exact (proj1 (Hsome "Q"))].
Defined.

(** *** Buckets under puts *)

Lemma bucket_of_app_other (d : OrderedDict.t (list nat)) k b key :
  k <> key -> bucket_of (d ++ [(k, b)]) key = bucket_of d key.
Proof.
  intros Hne. unfold bucket_of. rewrite get_app.
  destruct (get d key); [reflexivity|]. simpl.
  destruct (String.eqb_spec key k); [congruence | reflexivity].
Qed.

Lemma bucket_of_app_same (d : OrderedDict.t (list nat)) key b :
  ~ In key (keys d) -> bucket_of (d ++ [(key, b)]) key = b.
Proof.
  intros Hnot. unfold bucket_of. rewrite get_app.
  apply get_None in Hnot. rewrite Hnot. simpl. now rewrite String.eqb_refl.
Qed.

Lemma bucket_of_pop_other (d : OrderedDict.t (list nat)) k key :
  k <> key -> bucket_of (pop d k) key = bucket_of d key.
Proof.
  intros Hne. unfold bucket_of. rewrite get_pop_other; [reflexivity | congruence].
Qed.

Lemma bucket_of_tl_empty (d : OrderedDict.t (list nat)) key :
  NoDup (keys d) -> bucket_of d key = [] -> bucket_of (tl d) key = [].
Proof.
  destruct d as [|[k b] d]; [auto|]. intros Hnd. inversion Hnd; subst.
  unfold bucket_of. simpl.
  destruct (String.eqb_spec key k) as [->|Hne]; [|auto].
  intros _. assert (Hn : get d k = None) by now apply get_None.
  now rewrite Hn.
Qed.

(** with room for at least one key, a put leaves its item at the end of
    the bucket of its key *)
Lemma bucket_after_add opts key a s :
  (1 <= max_size opts)%Z ->
  bucket_of (cache_dict (snd (_add_to_cache opts key a s))) key
  = bucket_of (cache_dict s) key ++ [a].
Proof.
  intros Hcap. rewrite add_to_cache_dict. cbn [snd with_dict cache_dict].
  destruct (contains (cache_dict s) key) eqn:E.
  - apply bucket_of_app_same. rewrite keys_pop. apply without_notin.
  - apply contains_false in E.
    assert (Hb : bucket_of (cache_dict s) key = []).
    { unfold bucket_of. apply get_None in E. now rewrite E. }
    rewrite Hb. cbn [app].
    destruct (Z.leb_spec (Z.of_nat (S (len (cache_dict s)))) (max_size opts)).
    + now apply bucket_of_app_same.
    + destruct (cache_dict s) as [|[k0 b0] d]; [simpl in *; lia|].
      cbn [app tl]. apply bucket_of_app_same. simpl in E. tauto.
Qed.

(** a put under another key leaves an empty or missing bucket as it is *)
Lemma bucket_empty_add_other opts k a s key :
  NoDup (keys (cache_dict s)) -> k <> key ->
  bucket_of (cache_dict s) key = [] ->
  bucket_of (cache_dict (snd (_add_to_cache opts k a s))) key = [].
Proof.
  intros Hnd Hne Hb. rewrite add_to_cache_dict. cbn [snd with_dict cache_dict].
  destruct (contains (cache_dict s) k) eqn:E.
  - now rewrite bucket_of_app_other, bucket_of_pop_other.
  - apply contains_false in E. destruct (Z.leb _ _).
    + now rewrite bucket_of_app_other.
    + apply bucket_of_tl_empty; [|now rewrite bucket_of_app_other].
      rewrite keys_app. simpl. apply NoDup_app; repeat split.
      * assumption.
      * constructor; [simpl; tauto | constructor].
      * intros x Hx [<-|[]]. tauto.
Qed.

(** *** Calls through a wrapper *)

(** a wrapper whose item holds no payload runs its computation *)
Lemma wrapper_call_runs now f args s a item :
  lookup_fn (fn_cache s) (fn_id f) = Some a ->
  nth_error (heap s) a = Some item ->
  item_data item = PyNone ->
  item_function item = Some f ->
  wrapper_call now {| wrapped := f |} args s
  = (Ok (fn_body f args),
     {| cache_dict := cache_dict s;
        heap := heap_set (heap s) a (refresh now (fn_body f args) item);
        fn_cache := fn_cache s;
        calls := calls s ++ [(fn_id f, args)] |}).
Proof.
  intros Hl Hn Hd Hf. unfold wrapper_call. cbn [wrapped]. rewrite Hl.
  unfold get_data. rewrite Hn.
  assert (Hdata : data now item = PyNone).
  { unfold data. rewrite Hd. now destruct (Z.ltb _ _). }
  now rewrite Hdata, Hf.
Qed.

(** C6, refuted as stated.  After registering [f1] and then [f2] under
    "Q", the bucket of "Q" holds two entries, and the first one is still
    the entry of [f1]. *)
Lemma C6_first_entry_retained :
  cache_dict registered_twice = [("Q", [0; 1])]
  /\ option_map (fun it => option_map fn_id (item_function it))
       (nth_error (heap registered_twice) 0) = Some (Some 1)
  /\ option_map (fun it => option_map fn_id (item_function it))
       (nth_error (heap registered_twice) 1) = Some (Some 2).
Proof. repeat split. Qed.

(** C6, amended.  With room for at least one key and life times that are
    ints or [None]: registering [g1] and then [g2] under the same key
    raises no error; the second entry is appended to the bucket of the
    key after the first, which stays; a call through the second wrapper
    runs [g2]; and, the two being different functions, a call through the
    first wrapper still runs [g1]. *)
Theorem C6_second_registration_appends
    opts now1 now2 key lt1 lt2 z1 z2 g1 g2 s :
  resolve_life_time opts lt1 = Ok z1 ->
  resolve_life_time opts lt2 = Ok z2 ->
  (1 <= max_size opts)%Z ->
  let r1 := memoize opts now1 (Some key) lt1 g1 s in
  let r2 := memoize opts now2 (Some key) lt2 g2 (snd r1) in
  let a1 := List.length (heap s) in
  let a2 := S a1 in
  fst r1 = Ok {| wrapped := g1 |}
  /\ fst r2 = Ok {| wrapped := g2 |}
  /\ bucket_of (cache_dict (snd r2)) key
     = bucket_of (cache_dict s) key ++ [a1; a2]
  /\ nth_error (heap (snd r2)) a1 = Some (FunctionCacheItem opts now1 PyNone z1 g1)
  /\ nth_error (heap (snd r2)) a2 = Some (FunctionCacheItem opts now2 PyNone z2 g2)
  /\ (forall now args,
        fst (wrapper_call now {| wrapped := g2 |} args (snd r2))
        = Ok (fn_body g2 args)
        /\ calls (snd (wrapper_call now {| wrapped := g2 |} args (snd r2)))
           = calls s ++ [(fn_id g2, args)])
  /\ (fn_id g1 <> fn_id g2 ->
      forall now args,
        fst (wrapper_call now {| wrapped := g1 |} args (snd r2))
        = Ok (fn_body g1 args)
        /\ calls (snd (wrapper_call now {| wrapped := g1 |} args (snd r2)))
           = calls s ++ [(fn_id g1, args)]).
Proof.
  intros Hr1 Hr2 Hcap r1 r2 a1 a2.
  destruct (memoize_heap opts now1 key lt1 z1 g1 s Hr1) as (Hh1 & Hf1 & Hc1).
  destruct (memoize_heap opts now2 key lt2 z2 g2 (snd r1) Hr2) as (Hh2 & Hf2 & Hc2).
  cbv zeta in *. fold r1 in Hh1, Hf1, Hc1, Hh2, Hf2, Hc2. fold r2 in Hh2, Hf2, Hc2.
  assert (Hlen : List.length (heap (snd r1)) = a2).
  { rewrite Hh1, length_app. simpl. subst a2 a1. lia. }
  assert (Hn1 : nth_error (heap (snd r2)) a1
                = Some (FunctionCacheItem opts now1 PyNone z1 g1)).
  { rewrite Hh2, nth_error_app1 by (rewrite Hlen; subst a2; lia).
    rewrite Hh1. apply nth_error_snoc. }
  assert (Hn2 : nth_error (heap (snd r2)) a2
                = Some (FunctionCacheItem opts now2 PyNone z2 g2)).
  { rewrite Hh2, <- Hlen. apply nth_error_snoc. }
  split; [|split; [|split; [|split; [exact Hn1|split; [exact Hn2|split]]]]].
  - subst r1. now rewrite (memoize_ok _ _ _ _ _ _ _ Hr1).
  - subst r2. now rewrite (memoize_ok _ _ _ _ _ _ _ Hr2).
  - subst r2. rewrite (memoize_ok _ _ _ _ _ _ _ Hr2). cbn [snd].
    rewrite bucket_after_add by assumption. cbn [set_fn_cache alloc snd cache_dict].
    rewrite Hlen. clear - Hr1 Hcap.
    subst r1. rewrite (memoize_ok _ _ _ _ _ _ _ Hr1). cbn [snd].
    rewrite bucket_after_add by assumption. cbn [set_fn_cache alloc snd cache_dict].
    now rewrite <- app_assoc.
  - intros now args.
    rewrite (wrapper_call_runs now g2 args (snd r2) a2
               (FunctionCacheItem opts now2 PyNone z2 g2)); try exact Hn2;
      try reflexivity.
    + cbn [fst snd calls]. now rewrite Hc2, Hc1.
    + rewrite Hf2, Hlen. simpl. now rewrite Nat.eqb_refl.
  - intros Hid now args.
    rewrite (wrapper_call_runs now g1 args (snd r2) a1
               (FunctionCacheItem opts now1 PyNone z1 g1)); try exact Hn1;
      try reflexivity.
    + cbn [fst snd calls]. now rewrite Hc2, Hc1.
    + rewrite Hf2, Hf1. simpl. apply Nat.eqb_neq in Hid. rewrite Hid.
      now rewrite Nat.eqb_refl.
Qed.

(** [f1] then [f2] under "Q", from the empty store *)
Lemma C6_second_registration_appends_witness :
  bucket_of
    (cache_dict
       (snd (memoize opts_default 1 (Some "Q") LtNone f2
               (snd (memoize opts_default 0 (Some "Q") (LtInt 5) f1 empty_state)))))
    "Q" = [0; 1]
  /\ fst (wrapper_call 2 {| wrapped := f2 |} []
            (snd (memoize opts_default 1 (Some "Q") LtNone f2
                    (snd (memoize opts_default 0 (Some "Q") (LtInt 5) f1
                            empty_state)))))
     = Ok (PyStr "f2").
Proof.
  destruct (C6_second_registration_appends opts_default 0 1 "Q" (LtInt 5) LtNone
              5 10 f1 f2 empty_state eq_refl eq_refl)
    as (_ & _ & Hb & _ & _ & Hcall & _).
  - simpl. lia.
  - split; [exact Hb | exact (proj1 (Hcall 2%Z []))].
Defined.

(** The item a wrapper refreshes is the item in the bucket: once the
    second wrapper has run, [get_cache] returns what [f2] returned. *)
Lemma wrapper_refreshes_the_stored_item :
  fst (get_cache 3 "Q"
         (snd (wrapper_call 2 {| wrapped := f2 |} []
                 (snd (memoize opts_default 1 (Some "Q") LtNone f2
                         (snd (memoize opts_default 0 (Some "Q") (LtInt 5) f1
                                 empty_state)))))))
  = Some [PyStr "f2"].
Proof. reflexivity. Qed.

(** *** Reset *)

Lemma get_filter_keys {V : Type} (q : string -> bool) (d : OrderedDict.t V) key :
  get (filter (fun p => q (fst p)) d) key = if q key then get d key else None.
Proof.
  induction d as [|[k v] d IH]; simpl.
  - now destruct (q key).
  - destruct (q k) eqn:Eq; simpl.
    + destruct (String.eqb_spec key k) as [->|Hne]; [now rewrite Eq | exact IH].
    + rewrite IH. destruct (String.eqb_spec key k) as [->|Hne];
        [now rewrite Eq | reflexivity].
Qed.

Lemma get_cache_absent now key s :
  get (cache_dict s) key = None -> fst (get_cache now key s) = None.
Proof.
  intros H. apply get_None, contains_false in H.
  unfold get_cache. now rewrite H.
Qed.

Lemma reset_dict keys0 s :
  cache_dict (snd (reset keys0 s))
  = match keys0 with
    | None | Some [] => []
    | Some ks =>
        filter (fun p => negb (existsb (String.eqb (fst p)) ks)) (cache_dict s)
    end.
Proof.
  destruct keys0 as [[|k ks]|]; try reflexivity.
  unfold reset. cbn [List.length Nat.eqb snd with_dict cache_dict].
  apply reset_fold.
Qed.

Lemma reset_get keys0 s key :
  get (cache_dict (snd (reset keys0 s))) key
  = match keys0 with
    | None | Some [] => None
    | Some ks =>
        if existsb (String.eqb key) ks then None else get (cache_dict s) key
    end.
Proof.
  rewrite reset_dict. destruct keys0 as [[|k ks]|]; try reflexivity.
  rewrite (get_filter_keys (fun x => negb (existsb (String.eqb x) (k :: ks)))).
  now destruct (existsb (String.eqb key) (k :: ks)).
Qed.

(** C7.  [reset] always returns RESET and touches nothing but the
    dictionary.  With no key list, or an empty one, the dictionary is
    emptied, so [get_cache] of any key returns None.  With a non-empty
    list, the buckets of the listed keys are deleted and every other
    bucket is kept, in its place; a listed key that is not in the store is
    skipped. *)
Theorem C7_reset_spec keys0 s :
  fst (reset keys0 s) = RESET
  /\ heap (snd (reset keys0 s)) = heap s
  /\ cache_dict (snd (reset keys0 s))
     = match keys0 with
       | None | Some [] => []
       | Some ks =>
           filter (fun p => negb (existsb (String.eqb (fst p)) ks)) (cache_dict s)
       end
  /\ (forall key,
        get (cache_dict (snd (reset keys0 s))) key
        = match keys0 with
          | None | Some [] => None
          | Some ks =>
              if existsb (String.eqb key) ks then None else get (cache_dict s) key
          end)
  /\ (forall now key,
        fst (get_cache now key (snd (reset None s))) = None
        /\ fst (get_cache now key (snd (reset (Some []) s))) = None).
Proof.
  split; [|split; [|split; [apply reset_dict|split]]].
  - destruct keys0 as [[|k ks]|]; reflexivity.
  - destruct keys0 as [[|k ks]|]; reflexivity.
  - intros key. apply reset_get.
  - intros now key. split; now apply get_cache_absent.
Qed.

(** *** Clean *)

Lemma keys_clean_spec_incl now h (d : OrderedDict.t (list nat)) key :
  In key (keys (clean_spec now h d)) -> In key (keys d).
Proof.
  unfold clean_spec, keys. rewrite in_map_iff. intros ([k b] & <- & Hin).
  apply filter_In in Hin as [Hin _]. apply in_map_iff in Hin.
  destruct Hin as ([k' b'] & E & Hin). injection E as <- _.
  simpl. change k' with (fst (k', b')). now apply in_map.
Qed.

Lemma bucket_of_clean_spec now h (d : OrderedDict.t (list nat)) key :
  NoDup (keys d) ->
  bucket_of (clean_spec now h d) key
  = filter (fun a => is_not_None (data_at now h a)) (bucket_of d key).
Proof.
  unfold bucket_of. induction d as [|[k b] d IH]; intros Hnd; [reflexivity|].
  inversion Hnd as [|? ? Hk Hd]; subst.
  unfold clean_spec. cbn [map filter fst snd]. fold (clean_spec now h d).
  cbn [get]. destruct (String.eqb_spec key k) as [->|Hne].
  - destruct (filter _ b) as [|x l] eqn:Ef; cbn [List.length Nat.ltb Nat.leb].
    + assert (Hnone : get (clean_spec now h d) k = None).
      { apply get_None. intros Hin. apply Hk.
        now apply keys_clean_spec_incl in Hin. }
      now rewrite Hnone.
    + cbn [get]. now rewrite String.eqb_refl.
  - destruct (Nat.ltb 0 _); cbn [get].
    + destruct (String.eqb_spec key k); [congruence | auto].
    + auto.
Qed.

(** C8.  [clean] returns CLEANED and replaces the dictionary by
    [clean_spec]: every bucket keeps exactly its entries whose [data()] is
    present, in their relative order; the keys are the keys whose bucket
    keeps an entry, in the order they had. *)
Theorem C8_clean_spec now s :
  NoDup (keys (cache_dict s)) ->
  clean now s = (CLEANED, with_dict s (clean_spec now (heap s) (cache_dict s)))
  /\ (forall key,
        bucket_of (cache_dict (snd (clean now s))) key
        = filter (fun a => is_not_None (data_at now (heap s) a))
            (bucket_of (cache_dict s) key))
  /\ keys (cache_dict (snd (clean now s)))
     = filter
         (fun k => Nat.ltb 0
            (List.length
               (filter (fun a => is_not_None (data_at now (heap s) a))
                  (bucket_of (cache_dict s) k))))
         (keys (cache_dict s))
  /\ Forall (fun p => snd p <> []) (cache_dict (snd (clean now s))).
Proof.
  intros Hnd. unfold clean. rewrite (clean_dict now s Hnd).
  cbn [snd with_dict cache_dict]. split; [reflexivity|]. split; [|split].
  - intros key. now apply bucket_of_clean_spec.
  - now apply keys_clean_spec.
  - apply Forall_forall. intros [k b] Hin. unfold clean_spec in Hin.
    apply filter_In in Hin as [_ Hlen]. simpl in *.
    destruct b; [discriminate | congruence].
Qed.

(** at time 7: K loses its only entry and goes, L keeps its second one *)
Lemma C8_clean_spec_witness :
  fst (clean 7 expiring_store) = CLEANED
  /\ cache_dict (snd (clean 7 expiring_store)) = [("L", [2])].
Proof.
  assert (Hnd : NoDup (keys (cache_dict expiring_store))).
  { simpl. repeat constructor; simpl; intuition discriminate. }
  rewrite (proj1 (C8_clean_spec 7 expiring_store Hnd)).
  split; reflexivity.
Defined.

(** *** The signaler factory *)

(** C9.  [create_signaler] returns the broker channel for the tag
    "rabbit", the disabled channel for the tag "none", and raises for
    every other tag; the call itself raises, nothing is constructed.  The
    tag is [options["type"]], and "none" when there are no options or no
    such entry. *)
Theorem C9_create_signaler_spec options :
  (signaler_type options = "rabbit" ->
   create_signaler options = Ok (RabbitSignaller options))
  /\ (signaler_type options = "none" -> create_signaler options = Ok NoSignaler)
  /\ (signaler_type options <> "rabbit" -> signaler_type options <> "none" ->
      exists msg, create_signaler options = Raise (Exception msg))
  /\ (forall o ty,
        options = Some o -> get o "type" = Some ty -> signaler_type options = ty)
  /\ (forall o,
        options = Some o -> get o "type" = None -> signaler_type options = "none")
  /\ (options = None -> signaler_type options = "none").
Proof.
  unfold create_signaler. repeat split.
  - now intros ->.
  - now intros ->.
  - intros Hr Hn. apply String.eqb_neq in Hr, Hn. rewrite Hr, Hn. eauto.
  - intros o ty -> Hget. unfold signaler_type. rewrite Hget.
    assert (Hc : contains o "type" = true) by (apply get_contains; eauto).
    rewrite Hc. destruct o; [discriminate | reflexivity].
  - intros o -> Hget. unfold signaler_type. rewrite Hget.
    now destruct (_ && _).
  - now intros ->.
Qed.

(** the tags "rabbit", none given, and "redis" *)
Lemma C9_create_signaler_spec_witness :
  create_signaler (Some [("host", "mq"); ("type", "rabbit")])
  = Ok (RabbitSignaller (Some [("host", "mq"); ("type", "rabbit")]))
  /\ create_signaler (Some [("host", "mq")]) = Ok NoSignaler
  /\ exists msg, create_signaler (Some [("type", "redis")]) = Raise (Exception msg).
Proof.
  split; [|split].
  - apply (proj1 (C9_create_signaler_spec _)). reflexivity.
  - apply (proj1 (proj2 (C9_create_signaler_spec _))). reflexivity.
  - apply (proj1 (proj2 (proj2 (C9_create_signaler_spec _)))); discriminate.
Defined.

(** *** Removing the last entry of a bucket *)

Lemma PyValue_eqb_refl v : PyValue_eqb v v = true.
Proof.
  destruct v; simpl; [reflexivity | apply Z.eqb_refl | apply String.eqb_refl].
Qed.

Lemma get_cache_empty_bucket now key s :
  bucket_of (cache_dict s) key = [] -> fst (get_cache now key s) = None.
Proof.
  intros Hb. unfold get_cache.
  destruct (contains (cache_dict s) key); [|reflexivity]. cbn [fst].
  unfold bucket_of in *. rewrite get_move_to_end.
  now destruct (get (cache_dict s) key) as [b|]; [subst b|].
Qed.

Lemma step_bucket_empty opts s e key :
  NoDup (keys (cache_dict s)) ->
  writes_key (snd e) key = false ->
  bucket_of (cache_dict s) key = [] ->
  bucket_of (cache_dict (step opts s e)) key = [].
Proof.
  intros Hnd Hw Hb. destruct e as [now op].
  destruct op as [k p lt|k p lt|k|k p|ks| |k lt f|w args];
    cbn [snd step writes_key] in *.
  - apply String.eqb_neq in Hw. unfold add_or_update. cbn [alloc].
    now apply bucket_empty_add_other.
  - apply String.eqb_neq in Hw. rewrite set_data_dict.
    cbn [snd with_dict cache_dict].
    now rewrite bucket_of_app_other, bucket_of_pop_other.
  - unfold get_cache. destruct (contains (cache_dict s) k);
      cbn [snd with_dict cache_dict]; [|assumption].
    unfold bucket_of in *. now rewrite get_move_to_end.
  - unfold remove. destruct (contains (cache_dict s) k); [|assumption].
    destruct (String.eqb_spec k key) as [->|Hne].
    + rewrite Hb. cbn [find snd]. assumption.
    + destruct (find _ _); cbn [snd with_dict cache_dict]; [|assumption].
      unfold bucket_of in *. rewrite get_setitem_other; [assumption | congruence].
  - unfold bucket_of in *. rewrite reset_get.
    destruct ks as [[|k0 ks]|]; try reflexivity.
    now destruct (existsb (String.eqb key) (k0 :: ks)).
  - unfold clean. rewrite (clean_dict now s Hnd). cbn [snd with_dict cache_dict].
    rewrite bucket_of_clean_spec by assumption. now rewrite Hb.
  - unfold memoize, cache_decorator, resolve_life_time, decorator.
    destruct lt as [|z|str]; destruct k as [k|]; cbn [snd alloc]; try assumption.
    + apply String.eqb_neq in Hw.
      destruct (_add_to_cache opts k _ _) as [st s3] eqn:Ea. cbn [snd].
      change s3 with (snd (st, s3)). rewrite <- Ea.
      now apply bucket_empty_add_other.
    + apply String.eqb_neq in Hw.
      destruct (_add_to_cache opts k _ _) as [st s3] eqn:Ea. cbn [snd].
      change s3 with (snd (st, s3)). rewrite <- Ea.
      now apply bucket_empty_add_other.
  - now rewrite wrapper_call_dict.
Qed.

Lemma run_bucket_empty opts h s key :
  NoDup (keys (cache_dict s)) ->
  forallb (fun e => negb (writes_key (snd e) key)) h = true ->
  bucket_of (cache_dict s) key = [] ->
  bucket_of (cache_dict (run opts h s)) key = [].
Proof.
  revert s. induction h as [|e h IH]; intros s Hnd Hh Hb; [assumption|].
  simpl in Hh. apply andb_prop in Hh as [He Hh]. apply negb_true_iff in He.
  simpl. apply IH; [now apply step_NoDup | assumption |].
  now apply step_bucket_empty.
Qed.

(** C10.  When [remove(key, data)] takes the only entry of the bucket of
    [key], it returns REMOVED and the key stays in the store with an empty
    bucket: the size is unchanged, and [get_cache(key)] returns None then
    and after every sequence of calls that stores nothing under [key]
    (whether the key is still there with its empty bucket, or a reset, a
    clean or an eviction has dropped it). *)
Theorem C10_remove_last_entry_keeps_key opts now key payload a s :
  NoDup (keys (cache_dict s)) ->
  get (cache_dict s) key = Some [a] ->
  PyValue_eqb (data_at now (heap s) a) payload = true ->
  fst (remove now key payload s) = REMOVED
  /\ size (snd (remove now key payload s)) = size s
  /\ keys (cache_dict (snd (remove now key payload s))) = keys (cache_dict s)
  /\ get (cache_dict (snd (remove now key payload s))) key = Some []
  /\ (forall now', fst (get_cache now' key (snd (remove now key payload s))) = None)
  /\ (forall h now',
        forallb (fun e => negb (writes_key (snd e) key)) h = true ->
        fst (get_cache now' key (run opts h (snd (remove now key payload s))))
        = None).
Proof.
  intros Hnd Hget Heq.
  assert (Hin : In key (keys (cache_dict s)))
    by (apply contains_In, get_contains; eauto).
  assert (Hrm : remove now key payload s
                = (REMOVED, with_dict s (setitem (cache_dict s) key []))).
  { unfold remove. apply contains_In in Hin. rewrite Hin.
    unfold bucket_of. rewrite Hget. cbn [find]. rewrite Heq.
    cbn [list_remove]. now rewrite Nat.eqb_refl. }
  rewrite Hrm. cbn [fst snd].
  assert (Hb : bucket_of (cache_dict (with_dict s (setitem (cache_dict s) key []))) key
               = []).
  { unfold bucket_of. cbn [with_dict cache_dict]. now rewrite get_setitem_same. }
  assert (Hnd' : NoDup (keys (cache_dict (with_dict s (setitem (cache_dict s) key []))))).
  { cbn [with_dict cache_dict]. now rewrite keys_setitem_present. }
  split; [reflexivity|]. split; [|split; [|split; [|split]]].
  - unfold size, _size. cbn [with_dict cache_dict]. now apply len_setitem_present.
  - cbn [with_dict cache_dict]. now apply keys_setitem_present.
  - cbn [with_dict cache_dict]. apply get_setitem_same.
  - intros now'. now apply get_cache_empty_bucket.
  - intros h now' Hh. apply get_cache_empty_bucket.
    now apply run_bucket_empty.
Qed.

(** removing the only entry of K, then a [get_cache] and a put under L *)
Lemma C10_remove_last_entry_keeps_key_witness :
  fst (remove 1 "K" (PyInt 1) single_entry) = REMOVED
  /\ size (snd (remove 1 "K" (PyInt 1) single_entry)) = 1
  /\ fst (get_cache 2 "K"
            (run opts_default [(2%Z, OpGetCache "K"); (2%Z, OpAddOrUpdate "L" PyNone None)]
               (snd (remove 1 "K" (PyInt 1) single_entry)))) = None.
Proof.
  assert (Hnd : NoDup (keys (cache_dict single_entry))).
  { simpl. repeat constructor. simpl. tauto. }
  destruct (C10_remove_last_entry_keeps_key opts_default 1 "K" (PyInt 1) 0
              single_entry Hnd eq_refl eq_refl)
    as (Hst & Hsz & _ & _ & _ & Hrun).
  split; [exact Hst|]. split; [exact Hsz|].
  apply Hrun. reflexivity.
Defined.

(** * Further properties of the manager *)

(** ** Reading *)

(** what [get_cache] returns, from the bucket of the key *)
Lemma get_cache_result now key s :
  fst (get_cache now key s)
  = match present_payloads now (heap s) (bucket_of (cache_dict s) key) with
    | [] => None
    | v :: l => Some (v :: l)
    end.
Proof.
  unfold get_cache. destruct (contains (cache_dict s) key) eqn:E; cbn [fst].
  - unfold bucket_of. rewrite get_move_to_end.
    rewrite (map_filter_comm (data_at now (heap s)) is_not_None).
    unfold present_payloads.
    now destruct (filter is_not_None _).
  - apply contains_false, get_None in E. unfold bucket_of. now rewrite E.
Qed.

Lemma get_cache_state now key s :
  heap (snd (get_cache now key s)) = heap s
  /\ forall k, get (cache_dict (snd (get_cache now key s))) k = get (cache_dict s) k.
Proof.
  unfold get_cache. destruct (contains (cache_dict s) key);
    cbn [snd with_dict cache_dict heap]; split; auto.
  intros k. apply get_move_to_end.
Qed.

Lemma data_at_app now h item a :
  a < List.length h -> data_at now (h ++ [item]) a = data_at now h a.
Proof. intros H. unfold data_at. now rewrite nth_error_app1. Qed.

Lemma data_at_new now h item :
  data_at now (h ++ [item]) (List.length h) = data now item.
Proof. unfold data_at. now rewrite nth_error_snoc. Qed.

Lemma present_payloads_app now h b1 b2 :
  present_payloads now h (b1 ++ b2)
  = present_payloads now h b1 ++ present_payloads now h b2.
Proof. unfold present_payloads. now rewrite map_app, filter_app. Qed.

Lemma present_payloads_grow now h item b :
  Forall (fun a => a < List.length h) b ->
  present_payloads now (h ++ [item]) b = present_payloads now h b.
Proof.
  intros Hb. unfold present_payloads. f_equal. apply map_ext_in.
  intros a Ha. apply data_at_app. rewrite Forall_forall in Hb. auto.
Qed.

Lemma present_payloads_new now h item :
  present_payloads now (h ++ [item]) [List.length h]
  = match data now item with PyNone => [] | v => [v] end.
Proof.
  unfold present_payloads. cbn [map]. rewrite data_at_new.
  now destruct (data now item).
Qed.

(** ** Writing *)

(** X1.  [set_data] returns SET and leaves under its key exactly the one
    new item, whatever the key held before; the key is now the newest,
    every other bucket is as it was, and a following [get_cache] of the
    key returns the one payload, or None when [data()] of the new item is
    absent. *)
Theorem set_data_then_get_cache opts now key payload lt s :
  fst (set_data opts now key payload lt s) = SET
  /\ get (cache_dict (snd (set_data opts now key payload lt s))) key
     = Some [List.length (heap s)]
  /\ heap (snd (set_data opts now key payload lt s))
     = heap s ++ [CostumCacheItem opts now payload lt]
  /\ (forall k, k <> key ->
        get (cache_dict (snd (set_data opts now key payload lt s))) k
        = get (cache_dict s) k)
  /\ last (keys (cache_dict (snd (set_data opts now key payload lt s)))) key = key
  /\ (forall now',
        fst (get_cache now' key (snd (set_data opts now key payload lt s)))
        = match data now' (CostumCacheItem opts now payload lt) with
          | PyNone => None
          | v => Some [v]
          end).
Proof.
  rewrite set_data_dict. cbn [fst snd alloc with_dict cache_dict heap].
  assert (Hget : get (pop (cache_dict s) key ++ [(key, [List.length (heap s)])]) key
                 = Some [List.length (heap s)]).
  { rewrite get_app, get_pop_same. simpl. now rewrite String.eqb_refl. }
  split; [reflexivity|]. split; [exact Hget|]. split; [reflexivity|].
  split; [|split].
  - intros k Hk. rewrite get_app, get_pop_other by assumption.
    destruct (get (cache_dict s) k); [reflexivity|]. simpl.
    destruct (String.eqb_spec k key); [congruence | reflexivity].
  - rewrite keys_app. apply last_last.
  - intros now'. rewrite get_cache_result.
    cbn [with_dict cache_dict heap]. unfold bucket_of. rewrite Hget.
    rewrite present_payloads_new.
    now destruct (data now' (CostumCacheItem opts now payload lt)).
Qed.

(** X2.  With room for at least one key, [add_or_update] returns UPDATED
    for a new key and for an existing one alike, and appends the new item
    to the bucket of the key; a following [get_cache] of the key returns
    the present payloads of the old entries, in their order, followed by
    the new payload. *)
Theorem add_or_update_appends opts now key payload lt s :
  (1 <= max_size opts)%Z ->
  Forall (fun a => a < List.length (heap s)) (bucket_of (cache_dict s) key) ->
  fst (add_or_update opts now key payload lt s) = UPDATED
  /\ bucket_of (cache_dict (snd (add_or_update opts now key payload lt s))) key
     = bucket_of (cache_dict s) key ++ [List.length (heap s)]
  /\ heap (snd (add_or_update opts now key payload lt s))
     = heap s ++ [CostumCacheItem opts now payload lt]
  /\ (forall now',
        fst (get_cache now' key (snd (add_or_update opts now key payload lt s)))
        = match present_payloads now' (heap s) (bucket_of (cache_dict s) key)
                ++ match data now' (CostumCacheItem opts now payload lt) with
                   | PyNone => []
                   | v => [v]
                   end
          with
          | [] => None
          | v :: l => Some (v :: l)
          end).
Proof.
  intros Hcap Hvalid. unfold add_or_update. cbn [alloc].
  set (s1 := {| cache_dict := cache_dict s;
                heap := heap s ++ [CostumCacheItem opts now payload lt];
                fn_cache := fn_cache s; calls := calls s |}).
  pose proof (bucket_after_add opts key (List.length (heap s)) s1 Hcap) as Hb.
  destruct (heap_add_to_cache opts key (List.length (heap s)) s1) as (Hh & _).
  cbn [s1 cache_dict heap] in Hb, Hh.
  split; [now rewrite add_to_cache_dict|]. split; [exact Hb|].
  split; [exact Hh|].
  intros now'. rewrite get_cache_result, Hb, Hh, present_payloads_app.
  now rewrite present_payloads_grow, present_payloads_new.
Qed.

(** two puts under K, then a put under L *)
Lemma add_or_update_appends_witness :
  fst (get_cache 1 "K"
         (snd (add_or_update opts_default 0 "K" (PyStr "c") (Some 9%Z) two_buckets)))
  = Some [PyInt 1; PyStr "b"; PyStr "c"].
Proof.
  destruct (add_or_update_appends opts_default 0 "K" (PyStr "c") (Some 9%Z)
              two_buckets) as (_ & _ & _ & Hget).
  - simpl. lia.
  - simpl. repeat constructor.
  - now rewrite Hget.
Defined.

(** ** Removing *)

Lemma find_first_match (p : nat -> bool) (pre : list nat) (a : nat) (post : list nat) :
  Forall (fun x => p x = false) pre -> p a = true ->
  find p (pre ++ a :: post) = Some a.
Proof.
  induction pre as [|x pre IH]; simpl; intros Hpre Ha.
  - now rewrite Ha.
  - inversion Hpre as [|? ? Hx Hpre']; subst. rewrite Hx. auto.
Qed.

Lemma list_remove_first (pre : list nat) (a : nat) (post : list nat) :
  ~ In a pre -> list_remove a (pre ++ a :: post) = pre ++ post.
Proof.
  induction pre as [|x pre IH]; simpl; intros Hnot.
  - now rewrite Nat.eqb_refl.
  - destruct (Nat.eqb_spec x a) as [->|Hne]; [tauto|]. f_equal. tauto.
Qed.

Lemma find_no_match (p : nat -> bool) (l : list nat) :
  Forall (fun x => p x = false) l -> find p l = None.
Proof.
  induction l as [|x l IH]; simpl; [reflexivity|].
  intros H. inversion H as [|? ? Hx Hl]; subst. rewrite Hx. auto.
Qed.

Lemma remove_hit now key payload s pre a post :
  get (cache_dict s) key = Some (pre ++ a :: post) ->
  Forall (fun x => PyValue_eqb (data_at now (heap s) x) payload = false) pre ->
  PyValue_eqb (data_at now (heap s) a) payload = true ->
  remove now key payload s
  = (REMOVED, with_dict s (setitem (cache_dict s) key (pre ++ post))).
Proof.
  intros Hget Hpre Ha.
  assert (Hin : contains (cache_dict s) key = true)
    by (apply get_contains; eauto).
  assert (Hnot : ~ In a pre).
  { intros Hi. rewrite Forall_forall in Hpre. specialize (Hpre a Hi). congruence. }
  unfold remove. rewrite Hin. unfold bucket_of. rewrite Hget.
  rewrite (find_first_match
             (fun item => PyValue_eqb (data_at now (heap s) item) payload)
             pre a post Hpre Ha).
  now rewrite list_remove_first.
Qed.

(** X3.  [remove] deletes the first entry of the bucket whose [data()]
    equals the given value and only that one: the entries before it and
    after it stay, in their order, later entries with the same value
    included; it returns REMOVED, and neither the order of the keys nor
    any other bucket changes. *)
Theorem remove_first_match_only now key payload s pre a post :
  get (cache_dict s) key = Some (pre ++ a :: post) ->
  Forall (fun x => PyValue_eqb (data_at now (heap s) x) payload = false) pre ->
  PyValue_eqb (data_at now (heap s) a) payload = true ->
  fst (remove now key payload s) = REMOVED
  /\ get (cache_dict (snd (remove now key payload s))) key = Some (pre ++ post)
  /\ keys (cache_dict (snd (remove now key payload s))) = keys (cache_dict s)
  /\ heap (snd (remove now key payload s)) = heap s
  /\ (forall k, k <> key ->
        get (cache_dict (snd (remove now key payload s))) k
        = get (cache_dict s) k).
Proof.
  intros Hget Hpre Ha.
  assert (Hin : In key (keys (cache_dict s)))
    by (apply contains_In, get_contains; eauto).
  pose proof (remove_hit now key payload s pre a post Hget Hpre Ha) as Hrm.
  rewrite Hrm. cbn [fst snd with_dict cache_dict heap].
  split; [reflexivity|]. split; [apply get_setitem_same|].
  split; [now apply keys_setitem_present|]. split; [reflexivity|].
  intros k Hk. now apply get_setitem_other.
Qed.

(** the bucket [a, b, a] of K: removing "a" leaves [b, a] *)
Lemma remove_first_match_only_witness :
  fst (remove 1 "K" (PyStr "a") three_entries) = REMOVED
  /\ get (cache_dict (snd (remove 1 "K" (PyStr "a") three_entries))) "K"
     = Some [1; 2]
  /\ fst (get_cache 1 "K" (snd (remove 1 "K" (PyStr "a") three_entries)))
     = Some [PyStr "b"; PyStr "a"].
Proof.
  destruct (remove_first_match_only 1 "K" (PyStr "a") three_entries [] 0 [1; 2])
    as (Hst & Hb & _).
  - reflexivity.
  - constructor.
  - reflexivity.
  - split; [exact Hst|]. split; [exact Hb | reflexivity].
Defined.

(** X4.  When no entry under the key has a [data()] equal to the given
    value, in particular when the key is not in the store, [remove]
    returns NONE and changes nothing. *)
Theorem remove_without_match now key payload s :
  Forall (fun x => PyValue_eqb (data_at now (heap s) x) payload = false)
    (bucket_of (cache_dict s) key) ->
  remove now key payload s = (NONE, s).
Proof.
  intros H. unfold remove.
  destruct (contains (cache_dict s) key); [|reflexivity].
  now rewrite (find_no_match _ _ H).
Qed.

(** a value that is not under K, and a key that is not in the store *)
Lemma remove_without_match_witness :
  remove 1 "K" (PyStr "z") three_entries = (NONE, three_entries)
  /\ remove 1 "M" (PyStr "a") three_entries = (NONE, three_entries).
Proof.
  split; apply remove_without_match; simpl; repeat constructor.
Defined.

(** ** Appending to a present key *)

(** X5.  [_update] on a key that is not in the store returns False and
    changes nothing: no bucket and no item is created.  On a key of the
    store it returns True, appends one new item to the bucket and makes
    the key the newest; the number of keys does not change. *)
Theorem update_appends_only_if_present opts now key payload lt s :
  NoDup (keys (cache_dict s)) ->
  (~ In key (keys (cache_dict s)) ->
   _update opts now key payload lt s = (false, s))
  /\ (In key (keys (cache_dict s)) ->
      fst (_update opts now key payload lt s) = true
      /\ get (cache_dict (snd (_update opts now key payload lt s))) key
         = Some (bucket_of (cache_dict s) key ++ [List.length (heap s)])
      /\ heap (snd (_update opts now key payload lt s))
         = heap s ++ [CostumCacheItem opts now payload lt]
      /\ last (keys (cache_dict (snd (_update opts now key payload lt s)))) key = key
      /\ _size (snd (_update opts now key payload lt s)) = _size s).
Proof.
  intros Hnd. split; intros Hin.
  - apply contains_false in Hin. unfold _update. now rewrite Hin.
  - unfold _update. pose proof Hin as Hc. apply contains_In in Hc. rewrite Hc.
    cbn [alloc fst snd with_dict cache_dict heap].
    rewrite move_to_end_setitem.
    split; [reflexivity|]. split; [|split; [reflexivity|split]].
    + rewrite get_app, get_pop_same. simpl. now rewrite String.eqb_refl.
    + rewrite keys_app. apply last_last.
    + unfold _size. cbn [with_dict cache_dict].
      rewrite <- (len_pop_present (cache_dict s) key Hnd Hin).
      unfold len. rewrite length_app. simpl. lia.
Qed.

(** [_update] on L, which is there, and on M, which is not *)
Lemma update_appends_only_if_present_witness :
  _update opts_default 1 "M" (PyInt 0) None three_entries = (false, three_entries)
  /\ get (cache_dict (snd (_update opts_default 1 "L" (PyInt 0) None three_entries)))
       "L" = Some [3; 4].
Proof.
  assert (Hnd : NoDup (keys (cache_dict three_entries))).
  { simpl. repeat constructor; simpl; intuition discriminate. }
  destruct (update_appends_only_if_present opts_default 1 "M" (PyInt 0) None
              three_entries Hnd) as [Hmiss _].
  destruct (update_appends_only_if_present opts_default 1 "L" (PyInt 0) None
              three_entries Hnd) as [_ Hhit].
  split.
  - apply Hmiss. simpl. intuition discriminate.
  - destruct Hhit as (_ & Hb & _); [simpl; auto | exact Hb].
Defined.

(** ** The size under puts *)

(** eight calls under capacity 2 *)
Lemma size_le_capacity_without_set_data_witness :
  (Z.of_nat (size (run opts_capacity_2 history_without_set_data empty_state))
   <= max_size opts_capacity_2)%Z.
Proof.
  apply size_le_capacity_without_set_data; [simpl; lia | reflexivity].
Defined.

(** X7.  [add_or_update] changes the number of keys by at most one: the
    size stays when the key is in the store, grows by one when the key is
    new and fits, and stays when the key is new and does not fit.  So a
    store that holds more keys than the capacity (which [set_data] can
    bring about) is never brought back under it by a put. *)
Theorem add_or_update_size opts now key payload lt s :
  NoDup (keys (cache_dict s)) ->
  size (snd (add_or_update opts now key payload lt s))
  = (if contains (cache_dict s) key then size s
     else if (Z.of_nat (S (size s)) <=? max_size opts)%Z then S (size s)
          else size s)
  /\ ((max_size opts < Z.of_nat (size s))%Z ->
      size (snd (add_or_update opts now key payload lt s)) = size s).
Proof.
  intros Hnd.
  assert (Heq : size (snd (add_or_update opts now key payload lt s))
                = (if contains (cache_dict s) key then size s
                   else if (Z.of_nat (S (size s)) <=? max_size opts)%Z
                        then S (size s) else size s)).
  { unfold add_or_update. cbn [alloc]. rewrite add_to_cache_dict.
    unfold size, _size. cbn [snd with_dict cache_dict].
    destruct (contains (cache_dict s) key) eqn:E.
    - apply contains_In in E. rewrite <- (len_pop_present _ key Hnd E).
      unfold len. rewrite length_app. simpl. lia.
    - destruct (Z.leb _ _); unfold len.
      + rewrite length_app. simpl. lia.
      + destruct (cache_dict s); [reflexivity|]. simpl.
        rewrite length_app. simpl. lia. }
  split; [exact Heq|]. intros Hover. rewrite Heq.
  destruct (contains (cache_dict s) key); [reflexivity|].
  destruct (Z.leb_spec (Z.of_nat (S (size s))) (max_size opts)); [lia | reflexivity].
Qed.

(** capacity 1, the keys A and B: a put under C evicts A and leaves two keys *)
Lemma add_or_update_size_witness :
  size (snd (add_or_update opts_capacity_1 5 "C" (PyInt 3) None over_full)) = 2.
Proof.
  assert (Hnd : NoDup (keys (cache_dict over_full))).
  { simpl. repeat constructor; simpl; intuition discriminate. }
  apply (proj2 (add_or_update_size opts_capacity_1 5 "C" (PyInt 3) None over_full Hnd)).
  simpl. lia.
Defined.

(** ** Reset, twice and in either order *)

Lemma reset_snd keys0 s :
  snd (reset keys0 s) = with_dict s (cache_dict (snd (reset keys0 s))).
Proof.
  unfold reset. destruct keys0 as [ks|]; [|reflexivity].
  now destruct (Nat.eqb (List.length ks) 0).
Qed.

Lemma filter_comm {A : Type} (p q : A -> bool) (l : list A) :
  filter p (filter q l) = filter q (filter p l).
Proof.
  rewrite !filter_filter. apply filter_ext. intros x. apply andb_comm.
Qed.

Lemma filter_idem {A : Type} (p : A -> bool) (l : list A) :
  filter p (filter p l) = filter p l.
Proof.
  rewrite filter_filter. apply filter_ext. intros x. now destruct (p x).
Qed.

(** X8.  A signal delivered twice or two signals delivered in the other
    order leave the same state: [reset] with the same keys a second time
    changes nothing, and two resets commute. *)
Theorem reset_idempotent_and_commutes k1 k2 s :
  snd (reset k1 (snd (reset k1 s))) = snd (reset k1 s)
  /\ snd (reset k1 (snd (reset k2 s))) = snd (reset k2 (snd (reset k1 s))).
Proof.
  assert (Hd : forall ka kb,
             cache_dict (snd (reset ka (snd (reset kb s))))
             = cache_dict (snd (reset kb (snd (reset ka s))))).
  { intros ka kb. rewrite !reset_dict.
    destruct ka as [[|a ka]|]; destruct kb as [[|b kb]|]; try reflexivity.
    apply filter_comm. }
  split.
  - assert (HD : cache_dict (snd (reset k1 (snd (reset k1 s))))
                 = cache_dict (snd (reset k1 s))).
    { rewrite (reset_dict k1 (snd (reset k1 s))).
      destruct k1 as [[|a ka]|]; try reflexivity.
      rewrite (reset_dict (Some (a :: ka)) s). apply filter_idem. }
    rewrite (reset_snd k1 (snd (reset k1 s))), HD.
    now destruct (snd (reset k1 s)).
  - rewrite (reset_snd k1 (snd (reset k2 s))), (reset_snd k2 (snd (reset k1 s))).
    rewrite Hd.
    generalize (cache_dict (snd (reset k2 (snd (reset k1 s))))) as D. intros D.
    now rewrite (reset_snd k2 s), (reset_snd k1 s).
Qed.

(** ** Reads, expiry and clean *)

Lemma present_payloads_filter now h b :
  present_payloads now h (filter (fun a => is_not_None (data_at now h a)) b)
  = present_payloads now h b.
Proof.
  unfold present_payloads.
  rewrite (map_filter_comm (data_at now h) is_not_None). apply filter_idem.
Qed.

Lemma present_payloads_none now h b :
  Forall (fun a => data_at now h a = PyNone) b -> present_payloads now h b = [].
Proof.
  unfold present_payloads. induction b as [|a b IH]; [reflexivity|].
  intros H. inversion H as [|? ? Ha Hb]; subst. simpl. rewrite Ha. auto.
Qed.

Lemma clean_spec_cons now h k b (d : OrderedDict.t (list nat)) :
  clean_spec now h ((k, b) :: d)
  = if Nat.ltb 0 (List.length (filter (fun a => is_not_None (data_at now h a)) b))
    then (k, filter (fun a => is_not_None (data_at now h a)) b) :: clean_spec now h d
    else clean_spec now h d.
Proof.
  unfold clean_spec. cbn [map filter fst snd]. now destruct (Nat.ltb 0 _).
Qed.

Lemma clean_spec_idem now h (d : OrderedDict.t (list nat)) :
  clean_spec now h (clean_spec now h d) = clean_spec now h d.
Proof.
  induction d as [|[k b] d IH]; [reflexivity|].
  rewrite clean_spec_cons. destruct (Nat.ltb 0 _) eqn:E; [|exact IH].
  now rewrite clean_spec_cons, filter_idem, E, IH.
Qed.

Lemma NoDup_keys_clean_spec now h (d : OrderedDict.t (list nat)) :
  NoDup (keys d) -> NoDup (keys (clean_spec now h d)).
Proof. intros H. rewrite keys_clean_spec by assumption. now apply NoDup_filter. Qed.

(** X9.  At the time it runs, [clean] is invisible to readers:
    [get_cache] of any key returns after the clean what it returned before
    it; and a second clean at the same time changes nothing. *)
Theorem clean_preserves_reads now s :
  NoDup (keys (cache_dict s)) ->
  (forall key,
      fst (get_cache now key (snd (clean now s))) = fst (get_cache now key s))
  /\ snd (clean now (snd (clean now s))) = snd (clean now s).
Proof.
  intros Hnd. unfold clean. rewrite (clean_dict now s Hnd). cbn [snd]. split.
  - intros key. rewrite !get_cache_result. cbn [with_dict cache_dict heap].
    now rewrite bucket_of_clean_spec, present_payloads_filter.
  - rewrite clean_dict
      by (cbn [with_dict cache_dict]; now apply NoDup_keys_clean_spec).
    cbn [snd with_dict cache_dict heap fn_cache calls].
    now rewrite clean_spec_idem.
Qed.

(** at time 7 the only entry of K has expired, L has one left *)
Lemma clean_preserves_reads_witness :
  fst (get_cache 7 "K" (snd (clean 7 expiring_store))) = None
  /\ fst (get_cache 7 "L" (snd (clean 7 expiring_store))) = Some [PyInt 3].
Proof.
  assert (Hnd : NoDup (keys (cache_dict expiring_store))).
  { simpl. repeat constructor; simpl; intuition discriminate. }
  destruct (clean_preserves_reads 7 expiring_store Hnd) as [Hread _].
  split; rewrite Hread; reflexivity.
Defined.

(** X10.  [get_cache] changes nothing but the order of the keys: every
    bucket, the items and the number of keys are as before, so a read
    does not change what any later read at the same time returns. *)
Theorem get_cache_only_reorders now key s :
  NoDup (keys (cache_dict s)) ->
  heap (snd (get_cache now key s)) = heap s
  /\ (forall k, get (cache_dict (snd (get_cache now key s))) k = get (cache_dict s) k)
  /\ size (snd (get_cache now key s)) = size s
  /\ (forall a, In a (keys (cache_dict (snd (get_cache now key s))))
                <-> In a (keys (cache_dict s)))
  /\ (forall now' k,
        fst (get_cache now' k (snd (get_cache now key s)))
        = fst (get_cache now' k s)).
Proof.
  intros Hnd. destruct (get_cache_state now key s) as [Hh Hg].
  split; [exact Hh|]. split; [exact Hg|]. split; [|split].
  - unfold size, _size, get_cache.
    destruct (contains (cache_dict s) key); cbn [snd with_dict cache_dict];
      [now apply len_move_to_end | reflexivity].
  - intros a. rewrite <- !contains_In.
    destruct (contains (cache_dict (snd (get_cache now key s))) a) eqn:E1;
      destruct (contains (cache_dict s) a) eqn:E2; try tauto.
    + apply get_contains in E1. rewrite Hg in E1. apply get_contains in E1.
      congruence.
    + apply get_contains in E2. rewrite <- Hg in E2. apply get_contains in E2.
      congruence.
  - intros now' k. rewrite !get_cache_result, Hh. unfold bucket_of.
    now rewrite Hg.
Qed.

(** reading L does not change what reading K returns *)
Lemma get_cache_only_reorders_witness :
  fst (get_cache 1 "K" (snd (get_cache 1 "L" three_entries)))
  = Some [PyStr "a"; PyStr "b"; PyStr "a"]
  /\ size (snd (get_cache 1 "L" three_entries)) = 2.
Proof.
  assert (Hnd : NoDup (keys (cache_dict three_entries))).
  { simpl. repeat constructor; simpl; intuition discriminate. }
  destruct (get_cache_only_reorders 1 "L" three_entries Hnd)
    as (_ & _ & Hsz & _ & Hread).
  split; [now rewrite Hread | exact Hsz].
Defined.

(** X11.  Expiry is lazy: when [data()] of every entry under a key of the
    store is absent, [get_cache] returns None but deletes nothing, the key
    stays in the store and in the size with its bucket; it is [clean] that
    drops the key. *)
Theorem expired_entries_stay_until_clean now key s :
  NoDup (keys (cache_dict s)) ->
  In key (keys (cache_dict s)) ->
  Forall (fun a => data_at now (heap s) a = PyNone) (bucket_of (cache_dict s) key) ->
  fst (get_cache now key s) = None
  /\ In key (keys (cache_dict (snd (get_cache now key s))))
  /\ bucket_of (cache_dict (snd (get_cache now key s))) key
     = bucket_of (cache_dict s) key
  /\ size (snd (get_cache now key s)) = size s
  /\ ~ In key (keys (cache_dict (snd (clean now s)))).
Proof.
  intros Hnd Hin Hexp. destruct (get_cache_state now key s) as [Hh Hg].
  split; [|split; [|split; [|split]]].
  - now rewrite get_cache_result, present_payloads_none.
  - apply contains_In, get_contains. rewrite Hg.
    now apply get_contains, contains_In.
  - unfold bucket_of. now rewrite Hg.
  - unfold size, _size, get_cache. apply contains_In in Hin. rewrite Hin.
    cbn [snd with_dict cache_dict]. now apply len_move_to_end.
  - unfold clean. rewrite (clean_dict now s Hnd). cbn [snd with_dict cache_dict].
    rewrite keys_clean_spec by assumption. rewrite filter_In. intros [_ Hq].
    assert (Hnil : filter (fun a => is_not_None (data_at now (heap s) a))
                     (bucket_of (cache_dict s) key) = []).
    { clear - Hexp. induction (bucket_of (cache_dict s) key) as [|a b IH];
        [reflexivity|].
      inversion Hexp as [|? ? Ha Hb]; subst. simpl. rewrite Ha. auto. }
    rewrite Hnil in Hq. discriminate.
Qed.

(** at time 7 the only entry of K has expired *)
Lemma expired_entries_stay_until_clean_witness :
  fst (get_cache 7 "K" expiring_store) = None
  /\ In "K" (keys (cache_dict (snd (get_cache 7 "K" expiring_store))))
  /\ ~ In "K" (keys (cache_dict (snd (clean 7 expiring_store)))).
Proof.
  assert (Hnd : NoDup (keys (cache_dict expiring_store))).
  { simpl. repeat constructor; simpl; intuition discriminate. }
  destruct (expired_entries_stay_until_clean 7 "K" expiring_store Hnd)
    as (Hr & Hin & _ & _ & Hc).
  - simpl. auto.
  - simpl. repeat constructor.
  - split; [exact Hr|]. split; [exact Hin | exact Hc].
Defined.

(** ** A key that was just read and the next put *)

(** X12.  A key that [get_cache] has just found is not the one the next
    [add_or_update] evicts, whatever key that put is for, provided the
    store holds another key or the capacity is at least two; and unless
    the put is for that very key, its bucket is untouched. *)
Theorem read_key_survives_next_put opts now key s now' key' payload lt :
  NoDup (keys (cache_dict s)) ->
  In key (keys (cache_dict s)) ->
  2 <= size s \/ (2 <= max_size opts)%Z ->
  In key
    (keys (cache_dict
             (snd (add_or_update opts now' key' payload lt
                     (snd (get_cache now key s))))))
  /\ (key' <> key ->
      get (cache_dict
             (snd (add_or_update opts now' key' payload lt
                     (snd (get_cache now key s))))) key
      = get (cache_dict s) key).
Proof.
  intros Hnd Hin Hroom.
  pose proof Hin as Hc. apply contains_In in Hc.
  pose proof Hc as Hg. apply get_contains in Hg. destruct Hg as [b Hg].
  assert (Hs1 : snd (get_cache now key s)
                = with_dict s (pop (cache_dict s) key ++ [(key, b)])).
  { unfold get_cache. rewrite Hc. cbn [snd]. unfold move_to_end. now rewrite Hg. }
  rewrite Hs1. unfold add_or_update. cbn [alloc with_dict cache_dict heap].
  rewrite add_to_cache_dict. cbn [snd with_dict cache_dict].
  set (d1 := pop (cache_dict s) key ++ [(key, b)]).
  assert (Hg1 : get d1 key = Some b).
  { unfold d1. rewrite get_app, get_pop_same. simpl. now rewrite String.eqb_refl. }
  assert (Hlen : S (len (pop (cache_dict s) key)) = len (cache_dict s))
    by now apply len_pop_present.
  destruct (contains d1 key') eqn:E'.
  - split.
    + rewrite keys_app, in_app_iff.
      destruct (String.eqb_spec key' key) as [->|Hne]; [right; now left|].
      left. rewrite keys_pop. apply filter_In. split.
      * apply contains_In, get_contains. eauto.
      * apply negb_true_iff. now apply String.eqb_neq.
    + intros Hne. rewrite get_app, get_pop_other by congruence.
      now rewrite Hg1, Hg.
  - destruct (Z.leb_spec (Z.of_nat (S (len d1))) (max_size opts)) as [Hfit|Hover].
    + split.
      * rewrite keys_app, in_app_iff. left. apply contains_In, get_contains. eauto.
      * intros _. now rewrite get_app, Hg1, Hg.
    + assert (Hpop : pop (cache_dict s) key <> []).
      { intros Hnil. rewrite Hnil in Hlen. unfold d1 in Hover.
        rewrite Hnil in Hover. unfold size, _size in Hroom. simpl in *.
        destruct Hroom; lia. }
      unfold d1. destruct (pop (cache_dict s) key) as [|x rest] eqn:Ep;
        [congruence|]. cbn [app tl].
      assert (Hrest : get rest key = None).
      { apply get_None. intros Hi.
        apply (without_notin key (keys (cache_dict s))).
        unfold without. rewrite <- keys_pop, Ep. simpl. now right. }
      split.
      * rewrite !keys_app, !in_app_iff. left. right. now left.
      * intros _. rewrite !get_app, Hrest. simpl.
        now rewrite String.eqb_refl, Hg.
Qed.

(** capacity 2, the keys K and L: K is read, then a put under M evicts L *)
Lemma read_key_survives_next_put_witness :
  In "K"
    (keys (cache_dict
             (snd (add_or_update opts_capacity_2 2 "M" (PyInt 0) None
                     (snd (get_cache 1 "K" two_buckets))))))
  /\ keys (cache_dict
             (snd (add_or_update opts_capacity_2 2 "M" (PyInt 0) None
                     (snd (get_cache 1 "K" two_buckets)))))
     = ["K"; "M"].
Proof.
  assert (Hnd : NoDup (keys (cache_dict two_buckets))).
  { simpl. repeat constructor; simpl; intuition discriminate. }
  split; [|reflexivity].
  apply (read_key_survives_next_put opts_capacity_2 1 "K" two_buckets 2 "M"
           (PyInt 0) None Hnd).
  - simpl. auto.
  - left. vm_compute. lia.
Defined.

(** ** Wrappers and the store *)

Lemma get_data_with_dict now a args s d :
  get_data now a args (with_dict s d)
  = (fst (get_data now a args s), with_dict (snd (get_data now a args s)) d).
Proof.
  unfold get_data. cbn [with_dict heap].
  destruct (nth_error (heap s) a) as [it|]; [|reflexivity].
  destruct (data now it); try reflexivity.
  now destruct (item_function it).
Qed.

(** X13.  A call through a wrapper neither reads nor changes the
    dictionary of the manager: it goes to the item through
    [function.cache].  So a [reset], of some keys or of all, changes
    nothing in what the wrapper of a registered function returns, and the
    call does not put the key back. *)
Theorem wrapper_ignores_the_store now w args s :
  (forall d,
      wrapper_call now w args (with_dict s d)
      = (fst (wrapper_call now w args s),
         with_dict (snd (wrapper_call now w args s)) d))
  /\ (forall ks,
        fst (wrapper_call now w args (snd (reset ks s)))
        = fst (wrapper_call now w args s)
        /\ cache_dict (snd (wrapper_call now w args (snd (reset ks s))))
           = cache_dict (snd (reset ks s))).
Proof.
  assert (H : forall d,
             wrapper_call now w args (with_dict s d)
             = (fst (wrapper_call now w args s),
                with_dict (snd (wrapper_call now w args s)) d)).
  { intros d. unfold wrapper_call. cbn [with_dict fn_cache].
    destruct (lookup_fn (fn_cache s) (fn_id (wrapped w))); [|reflexivity].
    apply get_data_with_dict. }
  split; [exact H|]. intros ks. rewrite (reset_snd ks s), H. split; reflexivity.
Qed.

(** X14.  Registering a function stores an entry that holds no payload
    yet: with room for at least one key, [get_cache] of the key returns
    after the registration what it returned before it. *)
Theorem registration_is_invisible_to_get_cache opts now key lt z f s :
  resolve_life_time opts lt = Ok z ->
  (1 <= max_size opts)%Z ->
  Forall (fun a => a < List.length (heap s)) (bucket_of (cache_dict s) key) ->
  forall now',
    fst (get_cache now' key (snd (memoize opts now (Some key) lt f s)))
    = fst (get_cache now' key s).
Proof.
  intros Hr Hcap Hvalid now'.
  destruct (memoize_heap opts now key lt z f s Hr) as (Hh & _).
  cbv zeta in Hh. rewrite !get_cache_result, Hh.
  rewrite (memoize_ok _ _ _ _ _ _ _ Hr). cbn [snd].
  rewrite bucket_after_add by assumption.
  cbn [set_fn_cache alloc snd cache_dict].
  rewrite present_payloads_app, present_payloads_grow by assumption.
  rewrite present_payloads_new.
  assert (Hd : data now' (FunctionCacheItem opts now PyNone z f) = PyNone).
  { unfold data. cbn [FunctionCacheItem item_data]. now destruct (Z.ltb _ _). }
  now rewrite Hd, app_nil_r.
Qed.

(** a function registered under L, which holds one value *)
Lemma registration_is_invisible_to_get_cache_witness :
  fst (get_cache 2 "L"
         (snd (memoize opts_default 1 (Some "L") (LtInt 9) f1 three_entries)))
  = Some [PyInt 7].
Proof.
  rewrite (registration_is_invisible_to_get_cache opts_default 1 "L" (LtInt 9) 9 f1
             three_entries eq_refl).
  - reflexivity.
  - simpl. lia.
  - simpl. repeat constructor.
Defined.

(** ** Memoization through the dispatcher *)

(** X15.  [RoutingDispatcher.cache] never meets the string default of
    [cache_decorator]: called without a life time it passes the int 0, so
    the call returns the decorator, whose life time is
    [min(0, max_life_time)] and not [default_life_time]; called without a
    key, the decorator it returns raises ValueError("key is None!") on the
    function it is applied to and leaves the state as it was. *)
Theorem dispatcher_cache_defaults opts :
  (forall key,
      RoutingDispatcher_cache opts None key
      = Ok (decorator opts (match key with Some k => k | None => None end)
              (Z.min 0 (max_life_time opts))))
  /\ (forall lt z now f s,
        resolve_life_time opts lt = Ok z ->
        exists dec,
          RoutingDispatcher_cache opts (Some lt) None = Ok dec
          /\ dec now f s = (Raise (ValueError "key is None!"), s))
  /\ (forall now f s,
        exists dec,
          RoutingDispatcher_cache opts None None = Ok dec
          /\ dec now f s = (Raise (ValueError "key is None!"), s))
  /\ (forall key now f s,
        exists dec,
          RoutingDispatcher_cache opts None (Some (Some key)) = Ok dec
          /\ fst (dec now f s) = Ok {| wrapped := f |}
          /\ heap (snd (dec now f s))
             = heap s
               ++ [FunctionCacheItem opts now PyNone (Z.min 0 (max_life_time opts)) f]).
Proof.
  split; [reflexivity|]. split; [|split].
  - intros lt z now f s Hr. exists (decorator opts None z).
    unfold RoutingDispatcher_cache, cache_decorator. now rewrite Hr.
  - intros now f s. eexists. split; reflexivity.
  - intros key now f s. eexists. split; [reflexivity|].
    pose proof (memoize_ok opts now key (LtInt 0) _ f s eq_refl) as Hm.
    destruct (memoize_heap opts now key (LtInt 0) _ f s eq_refl) as (Hh & _).
    cbv zeta in Hm, Hh. unfold memoize, cache_decorator in Hm, Hh.
    cbn [resolve_life_time] in Hm, Hh. now rewrite Hh, Hm.
Qed.

(** [cache(life_time=30)] without a key *)
Lemma dispatcher_cache_defaults_witness :
  exists dec,
    RoutingDispatcher_cache opts_default (Some (LtInt 30)) None = Ok dec
    /\ dec 0%Z f1 empty_state = (Raise (ValueError "key is None!"), empty_state).
Proof.
  exact (proj1 (proj2 (dispatcher_cache_defaults opts_default))
           (LtInt 30) 30%Z 0%Z f1 empty_state eq_refl).
Defined.

(** ** Ownership of the items *)

Lemma bucket_of_tl_cases (d : OrderedDict.t (list nat)) key :
  NoDup (keys d) ->
  bucket_of (tl d) key = bucket_of d key \/ bucket_of (tl d) key = [].
Proof.
  destruct d as [|[k b] d]; [now left|]. intros Hnd. inversion Hnd; subst.
  unfold bucket_of. simpl.
  destruct (String.eqb_spec key k) as [->|Hne]; [|now left].
  right. assert (Hn : get d k = None) by now apply get_None.
  now rewrite Hn.
Qed.

Lemma In_list_remove x y l : In x (list_remove y l) -> In x l.
Proof.
  induction l as [|z l IH]; simpl; [tauto|].
  destruct (Nat.eqb z y); simpl; tauto.
Qed.

Lemma NoDup_list_remove y l : NoDup l -> NoDup (list_remove y l).
Proof.
  induction l as [|z l IH]; simpl; [auto|]. intros H. inversion H; subst.
  destruct (Nat.eqb z y); [assumption|]. constructor; [|auto].
  intros Hi. now apply In_list_remove in Hi.
Qed.

Lemma length_heap_set h a it : List.length (heap_set h a it) = List.length h.
Proof.
  revert a. induction h as [|x h IH]; intros a; [reflexivity|].
  destruct a; simpl; [reflexivity | now rewrite IH].
Qed.

Lemma wrapper_call_heap_length now w args s :
  List.length (heap (snd (wrapper_call now w args s))) = List.length (heap s).
Proof.
  unfold wrapper_call. destruct (lookup_fn _ _) as [a|]; [|reflexivity].
  unfold get_data. destruct (nth_error (heap s) a) as [it|]; [|reflexivity].
  destruct (data now it); try reflexivity.
  destruct (item_function it); [|reflexivity]. cbn [snd heap].
  apply length_heap_set.
Qed.

(** the bucket of any key after a put *)
Lemma add_to_cache_bucket opts k0 a st key :
  NoDup (keys (cache_dict st)) ->
  bucket_of (cache_dict (snd (_add_to_cache opts k0 a st))) key
  = bucket_of (cache_dict st) key
  \/ bucket_of (cache_dict (snd (_add_to_cache opts k0 a st))) key = []
  \/ (k0 = key
      /\ bucket_of (cache_dict (snd (_add_to_cache opts k0 a st))) key
         = bucket_of (cache_dict st) key ++ [a]).
Proof.
  intros Hnd. rewrite add_to_cache_dict. cbn [snd with_dict cache_dict].
  destruct (contains (cache_dict st) k0) eqn:E.
  - destruct (String.eqb_spec k0 key) as [->|Hne].
    + right. right. split; [reflexivity|].
      apply bucket_of_app_same. rewrite keys_pop. apply without_notin.
    + left. now rewrite bucket_of_app_other, bucket_of_pop_other.
  - apply contains_false in E.
    assert (Hsame : k0 = key ->
              bucket_of (cache_dict st ++ [(k0, [a])]) key
              = bucket_of (cache_dict st) key ++ [a]).
    { intros <-. rewrite bucket_of_app_same by assumption.
      unfold bucket_of. apply get_None in E. now rewrite E. }
    destruct (Z.leb _ _).
    + destruct (String.eqb_spec k0 key) as [Heq|Hne].
      * right. right. auto.
      * left. now apply bucket_of_app_other.
    + assert (Hnd' : NoDup (keys (cache_dict st ++ [(k0, [a])]))).
      { rewrite keys_app. simpl. apply NoDup_app; repeat split.
        - assumption.
        - constructor; [simpl; tauto | constructor].
        - intros x Hx [<-|[]]. tauto. }
      destruct (bucket_of_tl_cases _ key Hnd') as [Ht|Ht]; [|auto].
      rewrite Ht. destruct (String.eqb_spec k0 key) as [Heq|Hne].
      * right. right. auto.
      * left. now apply bucket_of_app_other.
Qed.

(** How a call changes the bucket of a key: it keeps some of the
    entries in their order, or drops one, or (a call that stores under
    the key) it appends the item it has just created, or leaves that item
    alone in the bucket. *)
Lemma step_bucket opts s e key :
  NoDup (keys (cache_dict s)) ->
  List.length (heap s) <= List.length (heap (step opts s e))
  /\ ((exists p,
         bucket_of (cache_dict (step opts s e)) key
         = filter p (bucket_of (cache_dict s) key))
      \/ (exists x,
            bucket_of (cache_dict (step opts s e)) key
            = list_remove x (bucket_of (cache_dict s) key))
      \/ ((bucket_of (cache_dict (step opts s e)) key
           = bucket_of (cache_dict s) key ++ [List.length (heap s)]
           \/ bucket_of (cache_dict (step opts s e)) key = [List.length (heap s)])
          /\ writes_key (snd e) key = true
          /\ List.length (heap (step opts s e)) = S (List.length (heap s)))).
Proof.
  intros Hnd.
  assert (Hsame : forall b, exists p : nat -> bool, b = filter p b)
    by (intros b; exists (fun _ => true); now rewrite filter_true).
  assert (Hnil : forall b : list nat, exists p : nat -> bool, [] = filter p b)
    by (intros b; exists (fun _ => false); now rewrite filter_false).
  assert (Hadd : forall k0 item (fc : list (nat * nat)),
            let st := {| cache_dict := cache_dict s; heap := heap s ++ [item];
                         fn_cache := fc; calls := calls s |} in
            let s' := snd (_add_to_cache opts k0 (List.length (heap s)) st) in
            List.length (heap s) <= List.length (heap s')
            /\ ((exists p, bucket_of (cache_dict s') key
                           = filter p (bucket_of (cache_dict s) key))
                \/ (exists x, bucket_of (cache_dict s') key
                              = list_remove x (bucket_of (cache_dict s) key))
                \/ ((bucket_of (cache_dict s') key
                     = bucket_of (cache_dict s) key ++ [List.length (heap s)]
                     \/ bucket_of (cache_dict s') key = [List.length (heap s)])
                    /\ String.eqb k0 key = true
                    /\ List.length (heap s') = S (List.length (heap s))))).
  { intros k0 item fc st s'. subst s'.
    destruct (heap_add_to_cache opts k0 (List.length (heap s)) st) as (Hh & _).
    rewrite Hh. cbn [st heap]. rewrite length_app. simpl.
    split; [lia|].
    destruct (add_to_cache_bucket opts k0 (List.length (heap s)) st key Hnd)
      as [H | [H | [Hk H]]]; rewrite H; cbn [st cache_dict].
    - left. apply Hsame.
    - left. apply Hnil.
    - right. right. split; [now left|]. split; [|lia].
      subst. apply String.eqb_refl. }
  destruct e as [now op].
  destruct op as [k p lt|k p lt|k|k p|ks| |k lt f|w args];
    cbn [snd step writes_key].
  - unfold add_or_update. cbn [alloc]. apply Hadd.
  - rewrite set_data_dict. cbn [snd alloc with_dict cache_dict heap].
    rewrite length_app. simpl. split; [lia|].
    destruct (String.eqb_spec k key) as [->|Hne].
    + right. right. split; [|split; [reflexivity | lia]].
      right. apply bucket_of_app_same. rewrite keys_pop. apply without_notin.
    + left. rewrite bucket_of_app_other, bucket_of_pop_other by assumption.
      apply Hsame.
  - destruct (get_cache_state now k s) as [Hh Hg]. rewrite Hh. split; [lia|].
    left. unfold bucket_of. rewrite Hg. apply Hsame.
  - unfold remove. destruct (contains (cache_dict s) k);
      [|cbn [snd]; split; [lia | left; apply Hsame]].
    destruct (find _ _) as [x|]; cbn [snd with_dict cache_dict heap];
      [|split; [lia | left; apply Hsame]].
    split; [lia|]. destruct (String.eqb_spec k key) as [->|Hne].
    + right. left. exists x. unfold bucket_of at 1.
      now rewrite get_setitem_same.
    + left. unfold bucket_of at 1. rewrite get_setitem_other by congruence.
      apply Hsame.
  - rewrite (reset_snd ks s). cbn [with_dict heap cache_dict]. split; [lia|].
    left. unfold bucket_of at 1. rewrite reset_get.
    destruct ks as [[|k0 ks]|]; try apply Hnil.
    destruct (existsb _ _); [apply Hnil | apply Hsame].
  - unfold clean. rewrite (clean_dict now s Hnd).
    cbn [snd with_dict cache_dict heap]. split; [lia|].
    left. rewrite bucket_of_clean_spec by assumption. eauto.
  - unfold memoize, cache_decorator, resolve_life_time, decorator.
    destruct lt as [|z|str]; destruct k as [k|]; cbn [snd alloc];
      try (split; [lia | left; apply Hsame]).
    + destruct (_add_to_cache opts k _ _) as [st s3] eqn:Ea. cbn [snd].
      change s3 with (snd (st, s3)). rewrite <- Ea. apply Hadd.
    + destruct (_add_to_cache opts k _ _) as [st s3] eqn:Ea. cbn [snd].
      change s3 with (snd (st, s3)). rewrite <- Ea. apply Hadd.
  - rewrite wrapper_call_heap_length, wrapper_call_dict. split; [lia|].
    left. apply Hsame.
Qed.

Lemma writes_key_inj op k1 k2 :
  writes_key op k1 = true -> writes_key op k2 = true -> k1 = k2.
Proof.
  destruct op as [k p lt|k p lt|k|k p|ks| |[k|] lt f|w args]; simpl;
    try discriminate; intros H1 H2;
    apply String.eqb_eq in H1, H2; congruence.
Qed.

Lemma step_well_formed opts s e : well_formed s -> well_formed (step opts s e).
Proof.
  intros (Hnd & Hvalid & Hb & Hdisj).
  assert (Horigin : forall key x,
             In x (bucket_of (cache_dict (step opts s e)) key) ->
             In x (bucket_of (cache_dict s) key)
             \/ (x = List.length (heap s) /\ writes_key (snd e) key = true
                 /\ List.length (heap (step opts s e)) = S (List.length (heap s)))).
  { intros key x Hx.
    destruct (step_bucket opts s e key Hnd)
      as (_ & [[p H] | [[y H] | ([H|H] & Hw & Hl)]]); rewrite H in Hx.
    - left. now apply filter_In in Hx.
    - left. now apply In_list_remove in Hx.
    - apply in_app_iff in Hx. destruct Hx as [Hx|[<-|[]]]; auto.
    - destruct Hx as [<-|[]]. auto. }
  repeat split.
  - now apply step_NoDup.
  - intros key a Ha. destruct (step_bucket opts s e key Hnd) as (Hle & _).
    destruct (Horigin key a Ha) as [Hold | (-> & _ & Hl)].
    + specialize (Hvalid key a Hold). lia.
    + lia.
  - intros key.
    destruct (step_bucket opts s e key Hnd)
      as (_ & [[p H] | [[y H] | ([H|H] & _)]]); rewrite H.
    + now apply NoDup_filter.
    + now apply NoDup_list_remove.
    + apply NoDup_app; repeat split.
      * apply Hb.
      * constructor; [simpl; tauto | constructor].
      * intros x Hx [<-|[]]. specialize (Hvalid key _ Hx). lia.
    + constructor; [simpl; tauto | constructor].
  - intros k1 k2 a H1 H2.
    destruct (Horigin k1 a H1) as [O1 | (E1 & W1 & _)];
      destruct (Horigin k2 a H2) as [O2 | (E2 & W2 & _)].
    + eauto.
    + specialize (Hvalid k1 a O1). lia.
    + specialize (Hvalid k2 a O2). lia.
    + eapply writes_key_inj; eauto.
Qed.

Lemma run_well_formed opts h s : well_formed s -> well_formed (run opts h s).
Proof.
  revert s. induction h as [|e h IH]; intros s Hwf; [assumption|].
  simpl. apply IH. now apply step_well_formed.
Qed.

Lemma empty_state_well_formed : well_formed empty_state.
Proof.
  repeat split; simpl; try constructor; intros; try contradiction.
Qed.

(** X16.  In every state that a sequence of calls reaches from the empty
    store, also through [set_data] and through evictions, every address
    in a bucket is the address of an item, no bucket holds an item twice
    and no item is in two buckets: an item belongs to one bucket only. *)
Theorem reachable_well_formed opts s : reachable opts s -> well_formed s.
Proof.
  intros [h ->]. apply run_well_formed, empty_state_well_formed.
Qed.

(** the store after the eight calls under capacity 2 *)
Lemma reachable_well_formed_witness :
  well_formed (run opts_capacity_2 history_without_set_data empty_state).
Proof.
  apply (reachable_well_formed opts_capacity_2). now eexists.
Defined.

(** ** Reset of named keys, seen by readers *)

(** X17.  After a [reset] of named keys, [get_cache] returns None for
    each of them and, for every other key, what it returned before. *)
Theorem reset_keys_then_get_cache k0 ks s now key :
  fst (get_cache now key (snd (reset (Some (k0 :: ks)) s)))
  = if existsb (String.eqb key) (k0 :: ks) then None
    else fst (get_cache now key s).
Proof.
  rewrite !get_cache_result, (reset_snd (Some (k0 :: ks)) s).
  cbn [with_dict cache_dict heap]. unfold bucket_of. rewrite reset_get.
  now destruct (existsb (String.eqb key) (k0 :: ks)).
Qed.

(** ** A put and the removal of what it put *)

(** X18.  [add_or_update(key, v)] followed by [remove(key, v)] gives the
    bucket of the key back as it was, when no older entry of the bucket
    reads as [v] and the new entry does (it has not expired). *)
Theorem add_then_remove_restores_bucket opts now key v lt s now' :
  (1 <= max_size opts)%Z ->
  Forall (fun a => a < List.length (heap s)) (bucket_of (cache_dict s) key) ->
  Forall (fun x => PyValue_eqb (data_at now' (heap s) x) v = false)
    (bucket_of (cache_dict s) key) ->
  data now' (CostumCacheItem opts now v lt) = v ->
  fst (remove now' key v (snd (add_or_update opts now key v lt s))) = REMOVED
  /\ bucket_of
       (cache_dict (snd (remove now' key v (snd (add_or_update opts now key v lt s)))))
       key
     = bucket_of (cache_dict s) key.
Proof.
  intros Hcap Hvalid Hold Hnew.
  unfold add_or_update. cbn [alloc].
  set (s1 := {| cache_dict := cache_dict s;
                heap := heap s ++ [CostumCacheItem opts now v lt];
                fn_cache := fn_cache s; calls := calls s |}).
  pose proof (bucket_after_add opts key (List.length (heap s)) s1 Hcap) as Hb.
  destruct (heap_add_to_cache opts key (List.length (heap s)) s1) as (Hh & _).
  cbn [s1 cache_dict heap] in Hb, Hh.
  set (s2 := snd (_add_to_cache opts key (List.length (heap s)) s1)) in *.
  assert (Hget : get (cache_dict s2) key
                 = Some (bucket_of (cache_dict s) key ++ [List.length (heap s)] ++ [])).
  { unfold bucket_of in Hb at 1. rewrite app_nil_r.
    destruct (get (cache_dict s2) key) as [b|]; [now subst b|].
    destruct (bucket_of (cache_dict s) key); discriminate. }
  rewrite (remove_hit now' key v s2 _ _ [] Hget).
  - cbn [fst snd with_dict cache_dict]. split; [reflexivity|].
    unfold bucket_of at 1. now rewrite get_setitem_same, app_nil_r.
  - rewrite Hh. rewrite Forall_forall in *. intros x Hx.
    rewrite data_at_app by auto. auto.
  - rewrite Hh, data_at_new, Hnew. apply PyValue_eqb_refl.
Qed.

(** "z" is put under K, which holds a, b, a, and removed again *)
Lemma add_then_remove_restores_bucket_witness :
  bucket_of
    (cache_dict
       (snd (remove 2 "K" (PyStr "z")
               (snd (add_or_update opts_default 1 "K" (PyStr "z") (Some 9%Z)
                       three_entries)))))
    "K"
  = [0; 1; 2].
Proof.
  apply (add_then_remove_restores_bucket opts_default 1 "K" (PyStr "z")
           (Some 9%Z) three_entries 2).
  - simpl. lia.
  - simpl. repeat constructor.
  - simpl. repeat constructor.
  - reflexivity.
Defined.

(** ** The size under set_data *)

(** X19.  [set_data] never evicts: under a key of the store it leaves the
    number of keys as it is, and under a new key it adds one, whatever
    the capacity. *)
Theorem set_data_size opts now key payload lt s :
  NoDup (keys (cache_dict s)) ->
  size (snd (set_data opts now key payload lt s))
  = if contains (cache_dict s) key then size s else S (size s).
Proof.
  intros Hnd. rewrite set_data_dict. unfold size, _size.
  cbn [snd with_dict cache_dict].
  destruct (contains (cache_dict s) key) eqn:E.
  - apply contains_In in E.
    rewrite <- (len_pop_present (cache_dict s) key Hnd E).
    unfold len. rewrite length_app. simpl. lia.
  - apply contains_false in E. rewrite pop_absent by assumption.
    unfold len. rewrite length_app. simpl. lia.
Qed.

(** capacity 1, the keys A and B: a third key makes three *)
Lemma set_data_size_witness :
  size (snd (set_data opts_capacity_1 5 "C" (PyInt 3) None over_full)) = 3.
Proof.
  assert (Hnd : NoDup (keys (cache_dict over_full))).
  { simpl. repeat constructor; simpl; intuition discriminate. }
  now rewrite (set_data_size opts_capacity_1 5 "C" (PyInt 3) None over_full Hnd).
Defined.

(** ** What a wrapper computes, seen through the store *)

Lemma heap_set_last h item item' :
  heap_set (h ++ [item]) (List.length h) item' = h ++ [item'].
Proof. induction h as [|x h IH]; simpl; [reflexivity | now rewrite IH]. Qed.

(** X20.  The item a wrapper works on is the item that the registration
    put in the bucket.  After a function is registered under a key, the
    first call through its wrapper runs the function on the caller's
    arguments, and [get_cache] of the key then returns the payloads it
    returned before followed by what [data()] of the refreshed item is:
    the value the function returned, as long as the item has not expired. *)
Theorem wrapper_result_is_stored opts now key lt z f s now1 args now2 :
  resolve_life_time opts lt = Ok z ->
  (1 <= max_size opts)%Z ->
  Forall (fun a => a < List.length (heap s)) (bucket_of (cache_dict s) key) ->
  fst (wrapper_call now1 {| wrapped := f |} args
         (snd (memoize opts now (Some key) lt f s)))
  = Ok (fn_body f args)
  /\ fst (get_cache now2 key
            (snd (wrapper_call now1 {| wrapped := f |} args
                    (snd (memoize opts now (Some key) lt f s)))))
     = match present_payloads now2 (heap s) (bucket_of (cache_dict s) key)
             ++ match data now2
                        (refresh now1 (fn_body f args)
                           (FunctionCacheItem opts now PyNone z f)) with
                | PyNone => []
                | v => [v]
                end
       with
       | [] => None
       | v :: l => Some (v :: l)
       end.
Proof.
  intros Hr Hcap Hvalid.
  destruct (memoize_heap opts now key lt z f s Hr) as (Hh & Hf & _).
  cbv zeta in Hh, Hf.
  assert (Hb : bucket_of (cache_dict (snd (memoize opts now (Some key) lt f s))) key
               = bucket_of (cache_dict s) key ++ [List.length (heap s)]).
  { rewrite (memoize_ok _ _ _ _ _ _ _ Hr). cbn [snd].
    now rewrite bucket_after_add by assumption. }
  set (s1 := snd (memoize opts now (Some key) lt f s)) in *.
  rewrite (wrapper_call_runs now1 f args s1 (List.length (heap s))
             (FunctionCacheItem opts now PyNone z f)).
  - cbn [fst snd]. split; [reflexivity|].
    rewrite get_cache_result. cbn [heap cache_dict]. rewrite Hb, Hh.
    rewrite heap_set_last, present_payloads_app.
    now rewrite present_payloads_grow, present_payloads_new.
  - rewrite Hf. simpl. now rewrite Nat.eqb_refl.
  - rewrite Hh. apply nth_error_snoc.
  - reflexivity.
  - reflexivity.
Qed.

(** [f1] registered under L for 9 seconds at time 1, called at 2, read at 3 *)
Lemma wrapper_result_is_stored_witness :
  fst (get_cache 3 "L"
         (snd (wrapper_call 2 {| wrapped := f1 |} []
                 (snd (memoize opts_default 1 (Some "L") (LtInt 9) f1 three_entries)))))
  = Some [PyInt 7; PyStr "f1"].
Proof.
  destruct (wrapper_result_is_stored opts_default 1 "L" (LtInt 9) 9 f1
              three_entries 2 [] 3 eq_refl) as [_ Hget].
  - simpl. lia.
  - simpl. repeat constructor.
  - now rewrite Hget.
Defined.
